(** * pyorc: the transect accessor (pyorc/api/transect.py)

    A shallow embedding of [Transect.vector_to_scalar],
    [Transect.get_river_flow] and [Transect.get_q], and the properties of
    the cross-section geometry, the velocity projection and the width
    integration that the specification states about them.

    NumPy's float64 is embedded as the reals extended with the two
    infinities and one NaN: the special values behave as IEEE 754 says,
    finite arithmetic is exact (no rounding, no overflow, one zero).

    A dataset is a transect dataset: the coordinates "x", "y" and "scoords"
    of the points are there, "scoords" is a finite distance, and the
    variables looked up by name are arrays over (time | quantile, points),
    all rows as long as the points dimension. *)

From Stdlib Require Import Reals Lra Ascii.
From stdpp Require Import gmap strings list fin_maps.

Local Open Scope R_scope.

(** ** float64 *)

Inductive f64 : Type :=
| NaN
| Inf (neg : bool)
| Fin (r : R).

Definition isnan (a : f64) : bool :=
  match a with NaN => true | _ => false end.

Definition isfinite (a : f64) : bool :=
  match a with Fin _ => true | _ => false end.

Definition Rneg (r : R) : bool := if Rlt_dec r 0 then true else false.
Definition Rzero (r : R) : bool := if Req_dec_T r 0 then true else false.

Definition fopp (a : f64) : f64 :=
  match a with
  | NaN => NaN
  | Inf s => Inf (negb s)
  | Fin r => Fin (- r)
  end.

Definition fadd (a b : f64) : f64 :=
  match a, b with
  | NaN, _ | _, NaN => NaN
  | Inf s, Inf s' => if Bool.eqb s s' then Inf s else NaN
  | Inf s, Fin _ | Fin _, Inf s => Inf s
  | Fin r, Fin r' => Fin (r + r')
  end.

Definition fsub (a b : f64) : f64 := fadd a (fopp b).

Definition fmul (a b : f64) : f64 :=
  match a, b with
  | NaN, _ | _, NaN => NaN
  | Inf s, Inf s' => Inf (xorb s s')
  | Inf s, Fin r | Fin r, Inf s => if Rzero r then NaN else Inf (xorb s (Rneg r))
  | Fin r, Fin r' => Fin (r * r')
  end.

Definition fdiv (a b : f64) : f64 :=
  match a, b with
  | NaN, _ | _, NaN => NaN
  | Inf _, Inf _ => NaN
  | Inf s, Fin r => Inf (xorb s (Rneg r))
  | Fin _, Inf _ => Fin 0
  | Fin r, Fin r' =>
      if Rzero r' then (if Rzero r then NaN else Inf (Rneg r)) else Fin (r / r')
  end.

(** [a == b]: NaN is equal to nothing, itself included. *)
Definition feqb (a b : f64) : bool :=
  match a, b with
  | Fin r, Fin r' => if Req_dec_T r r' then true else false
  | Inf s, Inf s' => Bool.eqb s s'
  | _, _ => false
  end.

(** The angle of the point with abscissa [x] and ordinate [y]. *)
Definition Ratan2 (y x : R) : R :=
  if Rlt_dec 0 x then atan (y / x)
  else if Rlt_dec x 0 then (if Rlt_dec y 0 then atan (y / x) - PI else atan (y / x) + PI)
  else if Rlt_dec 0 y then PI / 2
  else if Rlt_dec y 0 then - (PI / 2)
  else 0.

Definition Rsigned (neg : bool) (r : R) : R := if neg then - r else r.

(** [np.arctan2(a, b)]: first argument the ordinate, second the abscissa. *)
Definition arctan2 (a b : f64) : f64 :=
  match a, b with
  | NaN, _ | _, NaN => NaN
  | Fin y, Fin x => Fin (Ratan2 y x)
  | Fin y, Inf false => Fin 0
  | Fin y, Inf true => Fin (Rsigned (Rneg y) PI)
  | Inf s, Fin _ => Fin (Rsigned s (PI / 2))
  | Inf s, Inf false => Fin (Rsigned s (PI / 4))
  | Inf s, Inf true => Fin (Rsigned s (3 * PI / 4))
  end.

Definition fcos (a : f64) : f64 :=
  match a with
  | Fin r => Fin (cos r)
  | _ => NaN
  end.

(** [a ** 0.5] *)
Definition pow_half (a : f64) : f64 :=
  match a with
  | NaN => NaN
  | Inf _ => Inf false
  | Fin r => if Rneg r then NaN else Fin (sqrt r)
  end.

(** [a ** 2] *)
Definition square (a : f64) : f64 := fmul a a.

Definition fsum (l : list f64) : f64 := foldr fadd (Fin 0) l.

(** [np.nanmean]: the mean of the entries that are not NaN, NaN when none is left. *)
Definition nanmean (l : list f64) : f64 :=
  let kept := filter (λ a, isnan a = false) l in
  match kept with
  | [] => NaN
  | _ => fdiv (fsum kept) (Fin (INR (length kept)))
  end.

Global Instance f64_inhabited : Inhabited f64 := populate NaN.

(** ** Arrays and datasets *)

(** A variable over (time, points) or (quantile, points): one row per time
    step or quantile, one column per point. *)
Abbreviation grid := (list (list f64)).

(** A variable as the dataset stores it: the data and the attributes. The
    name of an array is the key it is stored under. *)
Record DataArray (A : Type) : Type := mkDataArray {
  values : A;
  attrs : list (string * string)
}.
Arguments mkDataArray {A} _ _.
Arguments values {A} _.
Arguments attrs {A} _.

(** The transect dataset: the coordinates of the points dimension, the
    variables over (time | quantile, points) by name, and the two derived
    one-dimensional variables. *)
Record Dataset : Type := mkDataset {
  coord_x : list f64;                       (* "x" *)
  coord_y : list f64;                       (* "y" *)
  scoords : list R;                         (* "scoords", distance along the section *)
  xcoords : grid;
  ycoords : grid;
  zcoords : grid;
  h_a : list f64;
  data_vars : gmap string (DataArray grid);
  v_dir : option (DataArray (list f64));    (* "v_dir", over points *)
  river_flow : option (DataArray (list f64)) (* "river_flow", over quantile *)
}.

Definition set_data_var (k : string) (v : DataArray grid) (ds : Dataset) : Dataset :=
  mkDataset (coord_x ds) (coord_y ds) (scoords ds) (xcoords ds) (ycoords ds) (zcoords ds)
            (h_a ds) (<[k := v]> (data_vars ds)) (v_dir ds) (river_flow ds).

Definition set_v_dir (v : DataArray (list f64)) (ds : Dataset) : Dataset :=
  mkDataset (coord_x ds) (coord_y ds) (scoords ds) (xcoords ds) (ycoords ds) (zcoords ds)
            (h_a ds) (data_vars ds) (Some v) (river_flow ds).

Definition set_river_flow (v : DataArray (list f64)) (ds : Dataset) : Dataset :=
  mkDataset (coord_x ds) (coord_y ds) (scoords ds) (xcoords ds) (ycoords ds) (zcoords ds)
            (h_a ds) (data_vars ds) (v_dir ds) (Some v).

(** [len(ds.points)] *)
Definition n_points (ds : Dataset) : nat := length (coord_x ds).

(** [name in ds] for the name of a (time | quantile, points) variable. *)
Definition contains (ds : Dataset) (k : string) : bool :=
  bool_decide (is_Some (data_vars ds !! k)).

(** ** Exceptions and the object store *)

Inductive exn : Type :=
| ValueError (msg : string)
| KeyError (key : string)
| IndexError
| UnboundLocalError (var : string)
| ReferenceError.

(** What a call yields: the exception raised, or the value returned. *)
Global Instance result_ret : MRet (sum exn) := λ A a, inr a.
Global Instance result_bind : MBind (sum exn) := λ A B f r,
  match r with
  | inr a => f a
  | inl e => inl e
  end.

Abbreviation loc := nat.
Abbreviation heap := (gmap nat Dataset).

(** A computation reads and writes the datasets of the store and either
    returns or raises; what it wrote before raising stays written. *)
Definition M (A : Type) : Type := heap → (exn + A) * heap.

Global Instance M_ret : MRet M := λ A a σ, (inr a, σ).
Global Instance M_bind : MBind M := λ A B f m σ,
  match m σ with
  | (inr a, σ') => f a σ'
  | (inl e, σ') => (inl e, σ')
  end.

Definition raise {A} (e : exn) : M A := λ σ, (inl e, σ).

Definition lift {A} (r : exn + A) : M A := λ σ, (r, σ).

(** [self._obj] *)
Definition obj (self : loc) : M Dataset := λ σ,
  match σ !! self with
  | Some ds => (inr ds, σ)
  | None => (inl ReferenceError, σ)
  end.

(** In-place update of the dataset at [self]. *)
Definition modify (self : loc) (f : Dataset → Dataset) : M unit := λ σ,
  match σ !! self with
  | Some ds => (inr tt, <[self := f ds]> σ)
  | None => (inl ReferenceError, σ)
  end.

(** A new dataset object. *)
Definition alloc (ds : Dataset) : M loc := λ σ,
  let l := fresh (dom σ) in (inr l, <[l := ds]> σ).

(** [ds[k]] for a (time | quantile, points) variable. *)
Definition getitem (ds : Dataset) (k : string) : exn + DataArray grid :=
  match data_vars ds !! k with
  | Some v => inr v
  | None => inl (KeyError k)
  end.

(** ** NumPy indexing *)

(** [l[idx]] for a boolean mask [idx]. *)
Fixpoint mask {A} (idx : list bool) (l : list A) : list A :=
  match idx, l with
  | b :: idx', a :: l' => if b then a :: mask idx' l' else mask idx' l'
  | _, _ => []
  end.

(** [dst[idx] = src] for a boolean mask [idx] with as many [True] as [src]
    has entries. *)
Fixpoint mask_assign {A} (idx : list bool) (dst src : list A) : list A :=
  match idx, dst with
  | true :: idx', d :: dst' =>
      match src with
      | s :: src' => s :: mask_assign idx' dst' src'
      | [] => d :: dst'
      end
  | false :: idx', d :: dst' => d :: mask_assign idx' dst' src
  | _, _ => dst
  end.

(** [l[0]] and [l[-1]] *)
Definition first {A} (l : list A) : exn + A :=
  match l with
  | a :: _ => inr a
  | [] => inl IndexError
  end.

Definition last_item {A} (l : list A) : exn + A :=
  match last l with
  | Some a => inr a
  | None => inl IndexError
  end.

(** A NumPy scalar, or an array over the points. *)
Inductive angle_t : Type :=
| AScalar (a : f64)
| AArray (a : list f64).

Definition angle_map (f : f64 → f64) (a : angle_t) : angle_t :=
  match a with
  | AScalar v => AScalar (f v)
  | AArray l => AArray (f <$> l)
  end.

(** The entry that broadcasting pairs with point [p]. *)
Definition angle_at (a : angle_t) (p : nat) : option f64 :=
  match a with
  | AScalar v => Some v
  | AArray l => l !! p
  end.

(** [g - a]: a scalar goes to every cell, an array over the points to every row. *)
Definition grid_sub (g : grid) (a : angle_t) : grid :=
  match a with
  | AScalar v => (λ row : list f64, (λ c, fsub c v) <$> row) <$> g
  | AArray l => (λ row : list f64, zip_with fsub row l) <$> g
  end.

Definition grid_map (f : f64 → f64) (g : grid) : grid :=
  (λ row : list f64, f <$> row) <$> g.

Definition grid_zip (f : f64 → f64 → f64) (g g' : grid) : grid :=
  zip_with (zip_with f) g g'.

(** [np.ones(n) * a] *)
Definition ones_times (n : nat) (a : angle_t) : list f64 :=
  match a with
  | AScalar v => (λ o, fmul o v) <$> replicate n (Fin 1)
  | AArray l => zip_with fmul (replicate n (Fin 1)) l
  end.

Definition cell (g : grid) (t p : nat) : option f64 := g !! t ≫= (.!! p).

(** ** vector_to_scalar: the angle of the section *)

Definition distinct (x' y' x y : f64) : bool := negb (feqb x' x && feqb y' y).

(** Lines 45-60, the scan to the left of point [n] at [(x, y)]. [k] is
    [n + m + 1]: the positions [k - 1, ..., 0] are still to visit. The result
    is the value assigned to [angle_left], [None] when the scan leaves at the
    left bank, where nothing is assigned to it. *)
Fixpoint scan_left (xs ys : list f64) (x y : f64) (k : nat) : option f64 :=
  match k with
  | O => None
  | S i =>
      let x_left := xs !!! i in
      let y_left := ys !!! i in
      if distinct x_left y_left x y
      then Some (arctan2 (fsub x x_left) (fsub y y_left))
      else scan_left xs ys x y i
  end.

(** Lines 63-76, the scan to the right. [i] is [n + m] after [m += 1] and [k]
    is [len(xs) - 1 - (n + m)] cut off at 0, so [k = 0] is the test
    [n + m >= len(xs) - 1]. The result is the value of [angle_right]. *)
Fixpoint scan_right (xs ys : list f64) (x y : f64) (i k : nat) : f64 :=
  match k with
  | O => NaN
  | S k' =>
      let x_right := xs !!! i in
      let y_right := ys !!! i in
      if distinct x_right y_right x y
      then arctan2 (fsub x_right x) (fsub y_right y)
      else scan_right xs ys x y (S i) k'
  end.

Definition angle_right_of (xs ys : list f64) (n : nat) (x y : f64) : f64 :=
  scan_right xs ys x y (n + 1) (length xs - 1 - (n + 1)).

(** Lines 41-77, the loop over [enumerate(zip(xs, ys))] from point [n] on.
    [angle_left] is the local variable of that name, [None] while it is
    unbound; [angle] is the array being filled. *)
Fixpoint angle_loop (xs ys : list f64) (pts : list (f64 * f64)) (n : nat)
    (angle_left : option f64) (angle : list f64) : exn + list f64 :=
  match pts with
  | [] => inr angle
  | (x, y) :: pts' =>
      let angle_left' :=
        match scan_left xs ys x y n with
        | Some a => Some a
        | None => angle_left
        end in
      let angle_right := angle_right_of xs ys n x y in
      match angle_left' with
      | None => inl (UnboundLocalError "angle_left")
      | Some a =>
          angle_loop xs ys pts' (S n) angle_left'
                     (<[n := nanmean [a; angle_right]]> angle)
      end
  end.

(** Lines 25-79: the angle of the cross-section, one for all points in the
    global mode, one per point in the local mode. *)
Definition section_angle (ds : Dataset) (angle_method : Z) : exn + angle_t :=
  let idx := isfinite <$> coord_x ds in
  let xs := mask idx (coord_x ds) in
  let ys := mask idx (coord_y ds) in
  if bool_decide (angle_method = 0%Z) then
    x_left ← first xs;
    y_left ← first ys;
    x_right ← last_item xs;
    y_right ← last_item ys;
    inr (AScalar (arctan2 (fsub x_right x_left) (fsub y_right y_left)))
  else
    angle ← angle_loop xs ys (zip xs ys) 0 None (replicate (length ys) (Fin 0));
    inr (AArray (mask_assign idx (replicate (length (coord_x ds)) NaN) angle)).

(** ** vector_to_scalar *)

(** [0.5 * np.pi] *)
Definition half_pi : f64 := fmul (Fin (1 / 2)) (Fin PI).

Definition v_eff_attrs : list (string * string) :=
  [("standard_name", "velocity");
   ("long_name", "velocity in perpendicular direction of cross section, measured by angle in radians, measured from up-direction");
   ("units", "m s-1")].

Definition v_dir_attrs : list (string * string) :=
  [("standard_name", "river_flow_angle");
   ("long_name", "Angle of river flow in radians from North");
   ("units", "rad")].

(** Line 82 *)
Definition flow_direction (angle_da : angle_t) : angle_t :=
  angle_map (λ a, fsub a half_pi) angle_da.

(** Lines 85-92 *)
Definition effective_velocity (vx vy : grid) (flow_dir : angle_t) : grid :=
  let v_angle := grid_zip arctan2 vx vy in
  let v_scalar :=
    grid_map pow_half (grid_zip fadd (grid_map square vx) (grid_map square vy)) in
  let angle_diff := grid_sub v_angle flow_dir in
  grid_zip fmul (grid_map fcos angle_diff) v_scalar.

Definition set_v_dir_attrs (a : list (string * string)) (ds : Dataset) : Dataset :=
  match v_dir ds with
  | Some v => set_v_dir (mkDataArray (values v) a) ds
  | None => ds
  end.

Definition vector_to_scalar (self : loc) (angle_method : Z) (v_x v_y : string) : M unit :=
  ds ← obj self;
  angle_da ← lift (section_angle ds angle_method);
  let flow_dir := flow_direction angle_da in
  vx ← lift (getitem ds v_x);
  vy ← lift (getitem ds v_y);
  let v_eff := effective_velocity (values vx) (values vy) flow_dir in
  modify self (set_data_var "v_eff_nofill" (mkDataArray v_eff v_eff_attrs));;
  modify self (set_v_dir (mkDataArray (ones_times (n_points ds) flow_dir) []));;
  modify self (set_v_dir_attrs v_dir_attrs).

(** ** get_river_flow *)

Definition dquote : string := String "034"%char EmptyString.

Definition q_missing : string :=
  "Dataset must contain variable " +:+ dquote +:+ "q" +:+ dquote +:+
  ", which is the depth-integrated velocity [m2 s-1], perpendicular to cross-section. Create this with ds.transect.get_q".

Definition river_flow_attrs : list (string * string) :=
  [("standard_name", "river_discharge");
   ("long_name", "River Flow");
   ("units", "m3 s-1")].

(** [a.fillna(v)] on one entry *)
Definition fillna (v a : f64) : f64 := if isnan a then v else a.

(** xarray's trapezoidal rule along one axis: with [dx = x[1:] - x[:-1]],
    the sum of [dx * 0.5 * (y[1:] + y[:-1])]. *)
Definition trapz (y x : list f64) : f64 :=
  let dx := zip_with fsub (tail x) (removelast x) in
  let integrand :=
    zip_with fmul ((λ d, fmul d (Fin (1 / 2))) <$> dx)
             (zip_with fadd (tail y) (removelast y)) in
  fsum integrand.

(** [q.fillna(0.0).integrate(coord="scoords")]: one value per quantile. *)
Definition integrate_width (q : grid) (s : list R) : list f64 :=
  (λ row : list f64, trapz (fillna (Fin 0) <$> row) (Fin <$> s)) <$> q.

Definition get_river_flow (self : loc) : M unit :=
  ds ← obj self;
  if negb (contains ds "q") then raise (ValueError q_missing)
  else
    q ← lift (getitem ds "q");
    let Q := integrate_width (values q) (scoords ds) in
    modify self (set_river_flow (mkDataArray Q river_flow_attrs)).

(** ** get_q *)

Section GetQ.

(** xarray's [Dataset.quantile(quantiles, dim="time", keep_attrs=True)]:
    a function from the dataset to the reduced dataset. *)
Variable quantile : list f64 → Dataset → Dataset.

(** [helpers.velocity_fill] and [helpers.depth_integrate] are not part of
    this file's module; the specification gives them as functions of their
    arguments (4.4 and 4.5), and so they are taken here. *)
Variable velocity_fill :
  grid → grid → grid → DataArray grid → f64 → f64 → list f64 → string → DataArray grid.
Variable depth_integrate :
  grid → DataArray grid → f64 → f64 → list f64 → f64 → string → DataArray grid.

(** [camera_config.gcps["z_0"]] and [camera_config.gcps["h_ref"]] *)
Variables z_0 h_ref : f64.

Definition get_q (self : loc) (v_corr : f64) (quantiles : list f64) : M loc :=
  orig ← obj self;
  ds ← alloc (quantile quantiles orig);
  d ← obj ds;
  let x := xcoords d in
  let y := ycoords d in
  let z := zcoords d in
  let h_a := h_a d in
  v ← lift (getitem d "v_eff_nofill");
  modify ds (set_data_var "v_eff" (velocity_fill x y z v z_0 h_ref h_a "quantile"));;
  d ← obj ds;
  v ← lift (getitem d "v_eff_nofill");
  modify ds (set_data_var "q_nofill" (depth_integrate z v z_0 h_ref h_a v_corr "q_nofill"));;
  d ← obj ds;
  v ← lift (getitem d "v_eff");
  modify ds (set_data_var "q" (depth_integrate z v z_0 h_ref h_a v_corr "q"));;
  mret ds.

(** The dataset that lines 161-172 build from the reduced dataset [d],
    [v] being its "v_eff_nofill". *)
Definition q_dataset (d : Dataset) (v : DataArray grid) (v_corr : f64) : Dataset :=
  let v_eff :=
    velocity_fill (xcoords d) (ycoords d) (zcoords d) v z_0 h_ref (h_a d) "quantile" in
  set_data_var "q" (depth_integrate (zcoords d) v_eff z_0 h_ref (h_a d) v_corr "q")
    (set_data_var "q_nofill"
       (depth_integrate (zcoords d) v z_0 h_ref (h_a d) v_corr "q_nofill")
       (set_data_var "v_eff" v_eff d)).

End GetQ.

(** ** The states the calls leave, and reference definitions *)

(** [xs[idx]] and [ys[idx]] of lines 28-30: the coordinates of the points
    whose x passes [np.isfinite]. *)
Definition finite_xs (ds : Dataset) : list f64 :=
  mask (isfinite <$> coord_x ds) (coord_x ds).

Definition finite_ys (ds : Dataset) : list f64 :=
  mask (isfinite <$> coord_x ds) (coord_y ds).

(** The dataset after lines 100-107. *)
Definition with_projection (ds : Dataset) (flow_dir : angle_t) (vx vy : DataArray grid) : Dataset :=
  set_v_dir_attrs v_dir_attrs
    (set_v_dir (mkDataArray (ones_times (n_points ds) flow_dir) [])
       (set_data_var "v_eff_nofill"
          (mkDataArray (effective_velocity (values vx) (values vy) flow_dir) v_eff_attrs) ds)).

(** The dataset after line 148. *)
Definition with_river_flow (ds : Dataset) (q : DataArray grid) : Dataset :=
  set_river_flow (mkDataArray (integrate_width (values q) (scoords ds)) river_flow_attrs) ds.

(** The trapezoidal rule on the reals: the sum over the consecutive points of
    (s[i+1] - s[i]) * (y[i] + y[i+1]) / 2. *)
Fixpoint Rtrapezoid (s y : list R) : R :=
  match s, y with
  | s0 :: s', y0 :: y' =>
      match s', y' with
      | s1 :: _, y1 :: _ => (s1 - s0) * (y0 + y1) / 2 + Rtrapezoid s' y'
      | _, _ => 0
      end
  | _, _ => 0
  end.

(** [s.startswith(p)] *)
Fixpoint is_prefix (p s : string) : bool :=
  match p, s with
  | EmptyString, _ => true
  | String a p', String b s' => if Ascii.eqb a b then is_prefix p' s' else false
  | String _ _, EmptyString => false
  end.

(** [p in s] on strings *)
Fixpoint occurs (p s : string) : bool :=
  is_prefix p s ||
  match s with
  | EmptyString => false
  | String _ s' => occurs p s'
  end.

(** ** Example datasets *)

(** The variables "v_x" and "v_y". *)
Definition ex_velocity (vx vy : grid) : gmap string (DataArray grid) :=
  <["v_x" := mkDataArray vx []]> (<["v_y" := mkDataArray vy []]> ∅).

(** Two points on a line, one time step; the velocity at the second point
    has no x-component. *)
Definition ex_two_points : Dataset :=
  mkDataset [Fin 0; Fin 1] [Fin 0; Fin 0] [0; 1] [] [] [] []
            (ex_velocity [[Fin 1; NaN]] [[Fin 1; Fin 1]]) None None.

(** Three points, the middle one outside the area of interest. *)
Definition ex_gap : Dataset :=
  mkDataset [Fin 0; NaN; Fin 1] [Fin 0; NaN; Fin 0] [0; 1; 2] [] [] [] []
            (ex_velocity [[Fin 1; Fin 1; Fin 1]] [[Fin 1; Fin 1; Fin 1]]) None None.

(** No point inside the area of interest. *)
Definition ex_no_finite : Dataset :=
  mkDataset [NaN; Inf false] [NaN; Fin 0] [0; 1] [] [] [] []
            (ex_velocity [[Fin 1; Fin 1]] [[NaN; Fin 1]]) None None.

(** What the global mode stores for [ex_two_points]. *)
Definition ex_two_points_projected : Dataset :=
  with_projection ex_two_points
    (flow_direction
       (AScalar (arctan2 (fsub (Fin 1) (Fin 0)) (fsub (Fin 0) (Fin 0)))))
    (mkDataArray [[Fin 1; NaN]] []) (mkDataArray [[Fin 1; Fin 1]] []).

(** A dataset with "q" for two quantiles over three points, the second
    quantile with a gap. *)
Definition ex_flux : Dataset :=
  mkDataset [Fin 0; Fin 1; Fin 2] [Fin 0; Fin 0; Fin 0] [0; 1; 2] [] [] [] []
            (<["q" := mkDataArray [[Fin 2; Fin 2; Fin 2]; [Fin 2; NaN; Fin 2]] []]> ∅)
            None None.

(** The same points without "q". *)
Definition ex_no_flux : Dataset :=
  mkDataset [Fin 0; Fin 1; Fin 2] [Fin 0; Fin 0; Fin 0] [0; 1; 2] [] [] [] []
            ∅ None None.

(** A dataset over time with "v_eff_nofill". *)
Definition ex_series : Dataset :=
  mkDataset [Fin 0; Fin 1] [Fin 0; Fin 0] [0; 1] [] [] [] []
            (<["v_eff_nofill" := mkDataArray [[Fin 1; NaN]; [Fin 3; Fin 1]] []]> ∅)
            None None.

(** Stand-ins to run get_q with: the reduction keeps the first time step. *)
Definition ex_quantile (quantiles : list f64) (ds : Dataset) : Dataset :=
  mkDataset (coord_x ds) (coord_y ds) (scoords ds) (xcoords ds) (ycoords ds) (zcoords ds)
            (h_a ds) ((λ v : DataArray grid, mkDataArray (take 1 (values v)) (attrs v))
                        <$> data_vars ds)
            (v_dir ds) (river_flow ds).

(** The fill puts 0.0 in the gaps. *)
Definition ex_velocity_fill (x y z : grid) (v : DataArray grid) (z_0 h_ref : f64)
    (h_a : list f64) (groupby : string) : DataArray grid :=
  mkDataArray (grid_map (fillna (Fin 0)) (values v)) (attrs v).

(** The depth integration scales by [v_corr]. *)
Definition ex_depth_integrate (z : grid) (v : DataArray grid) (z_0 h_ref : f64)
    (h_a : list f64) (v_corr : f64) (name : string) : DataArray grid :=
  mkDataArray (grid_map (fmul v_corr) (values v)) (attrs v).

(** One point inside the area of interest, between two outside. *)
Definition ex_one_point : Dataset :=
  mkDataset [NaN; Fin 3; NaN] [NaN; Fin 4; NaN] [0; 1; 2] [] [] [] []
            (ex_velocity [[Fin 1; Fin 1; Fin 1]] [[Fin 2; Fin 2; Fin 2]]) None None.

(** A section of one station. *)
Definition ex_station : Dataset :=
  mkDataset [Fin 0] [Fin 0] [5] [] [] [] []
            (<["q" := mkDataArray [[Fin 2]; [Inf false]] []]> ∅) None None.

(** The first point has a finite x and no y. *)
Definition ex_nan_ordinate : Dataset :=
  mkDataset [Fin 0; Fin 1] [NaN; Fin 0] [0; 1] [] [] [] []
            (ex_velocity [[Fin 1; Fin 1]] [[Fin 1; Fin 1]]) None None.

(** Five points across the banks: the first, the third and the last are
    outside the area of interest. *)
Definition ex_banks : Dataset :=
  mkDataset [NaN; Fin 0; Inf false; Fin 1; NaN] [Fin 7; Fin 0; Fin 7; Fin 0; Fin 7]
            [0; 1; 2; 3; 4] [] [] [] []
            (ex_velocity [[Fin 1; Fin 1; Fin 1; Fin 1; Fin 1]]
                         [[Fin 1; Fin 1; Fin 1; Fin 1; Fin 1]]) None None.

(** A dataset whose "q" is zero at every point, for two quantiles. *)
Definition ex_zero_flux : Dataset :=
  mkDataset [Fin 0; Fin 1; Fin 2] [Fin 0; Fin 0; Fin 0] [0; 1; 2] [] [] [] []
            (<["q" := mkDataArray [[Fin 0; Fin 0; Fin 0]; [Fin 0; Fin 0; Fin 0]] []]> ∅)
            None None.

(** The names that a transect dataset resolves to something else than a
    variable over (time | quantile, points): its dimensions, its
    coordinates and the two derived one-dimensional variables. *)
Definition other_names : list string :=
  ["time"; "quantile"; "points"; "x"; "y"; "scoords"; "xcoords"; "ycoords"; "zcoords";
   "h_a"; "v_dir"; "river_flow"].

(** Not below zero: a number that is not negative, +inf, or NaN. *)
Definition not_negative (a : f64) : Prop :=
  match a with
  | NaN => True
  | Inf s => s = false
  | Fin r => 0 <= r
  end.

(** * Properties *)

(** ** float64 *)

Lemma Rzero_1 : Rzero 1 = false.
Proof. unfold Rzero. destruct (Req_dec_T 1 0); [lra | reflexivity]. Qed.

Lemma Rneg_1 : Rneg 1 = false.
Proof. unfold Rneg. destruct (Rlt_dec 1 0); [lra | reflexivity]. Qed.

Lemma fmul_1_l (a : f64) : fmul (Fin 1) a = a.
Proof.
  destruct a as [|s|r]; simpl.
  - reflexivity.
  - rewrite Rzero_1, Rneg_1. by destruct s.
  - f_equal. lra.
Qed.

Lemma half_pi_eq : half_pi = Fin (PI / 2).
Proof. unfold half_pi. simpl. f_equal. lra. Qed.

Lemma arctan2_nan (a b : f64) : isnan a || isnan b = true → arctan2 a b = NaN.
Proof. destruct a as [|[]|], b as [|[]|]; simpl; done. Qed.

Lemma square_nan (a : f64) : isnan a = true → square a = NaN.
Proof. by destruct a. Qed.

Lemma fadd_nan (a b : f64) : isnan a || isnan b = true → fadd a b = NaN.
Proof. destruct a as [|[]|], b as [|[]|]; simpl; done. Qed.

Lemma fmul_nan_l (a : f64) : fmul NaN a = NaN.
Proof. reflexivity. Qed.

Lemma fsub_nan_l (a : f64) : fsub NaN a = NaN.
Proof. reflexivity. Qed.

Lemma isnan_true (a : f64) : isnan a = true → a = NaN.
Proof. by destruct a. Qed.

(** The projection of an undefined velocity is undefined. *)
Lemma projection_nan (a b fd : f64) :
  isnan a || isnan b = true →
  fmul (fcos (fsub (arctan2 a b) fd)) (pow_half (fadd (square a) (square b))) = NaN.
Proof. intros H. by rewrite (arctan2_nan _ _ H). Qed.

(** ** Arrays *)

Lemma length_mask_assign {A} (idx : list bool) (dst src : list A) :
  length (mask_assign idx dst src) = length dst.
Proof.
  revert dst src. induction idx as [|b idx IH]; intros [|d dst] src; try done.
  - by destruct b.
  - destruct b; simpl; [destruct src|]; simpl; by rewrite ?IH.
Qed.

(** [dst[idx] = src] leaves the entries outside the mask as they were. *)
Lemma mask_assign_outside {A} (idx : list bool) (dst src : list A) (p : nat) :
  idx !! p = Some false → mask_assign idx dst src !! p = dst !! p.
Proof.
  revert dst src p. induction idx as [|b idx IH]; intros dst src p Hp; [done|].
  destruct dst as [|d dst]; [by destruct b|].
  destruct p as [|p]; simpl in Hp.
  - by simplify_eq.
  - destruct b; simpl; [destruct src|]; simpl; auto.
Qed.

Lemma length_mask_fmap {A} (f : A → bool) (l : list A) (k : list A) :
  length k = length l → length (mask (f <$> l) k) = length (mask (f <$> l) l).
Proof.
  revert k. induction l as [|a l IH]; intros [|b k] Hk; simplify_eq/=; [done|].
  destruct (f a); simpl; auto.
Qed.

Lemma cell_grid_map (f : f64 → f64) (g : grid) (t p : nat) :
  cell (grid_map f g) t p = f <$> cell g t p.
Proof.
  unfold cell, grid_map. rewrite list_lookup_fmap.
  destruct (g !! t) as [row|]; simpl; [|done]. by rewrite list_lookup_fmap.
Qed.

Lemma cell_grid_zip (f : f64 → f64 → f64) (g g' : grid) (t p : nat) :
  cell (grid_zip f g g') t p =
  a ← cell g t p; b ← cell g' t p; Some (f a b).
Proof.
  unfold cell, grid_zip. rewrite lookup_zip_with.
  destruct (g !! t) as [row|]; simpl; [|done].
  destruct (g' !! t) as [row'|]; simpl.
  - rewrite lookup_zip_with. done.
  - by destruct (row !! p).
Qed.

Lemma cell_grid_sub (g : grid) (a : angle_t) (t p : nat) :
  cell (grid_sub g a) t p =
  c ← cell g t p; d ← angle_at a p; Some (fsub c d).
Proof.
  unfold cell, grid_sub. destruct a as [v|l]; rewrite list_lookup_fmap;
    destruct (g !! t) as [row|]; simpl; try done.
  - rewrite list_lookup_fmap. by destruct (row !! p).
  - by rewrite lookup_zip_with.
Qed.

(** [np.ones(n) * a] holds, at every point below [n], the entry of [a]
    that broadcasting gives that point. *)
Lemma lookup_ones_times (n : nat) (a : angle_t) (p : nat) :
  ones_times n a !! p = if decide (p < n)%nat then angle_at a p else None.
Proof.
  unfold ones_times. destruct a as [v|l]; simpl.
  - rewrite list_lookup_fmap. case_decide as Hp.
    + rewrite lookup_replicate_2; [|done].
      change (Some (fmul (Fin 1) v) = Some v). by rewrite fmul_1_l.
    + rewrite lookup_ge_None_2; [done|]. rewrite length_replicate. lia.
  - rewrite lookup_zip_with. case_decide as Hp.
    + rewrite lookup_replicate_2; [|done].
      destruct (l !! p) as [d|]; [|done].
      change (Some (fmul (Fin 1) d) = Some d). by rewrite fmul_1_l.
    + rewrite (lookup_ge_None_2 (replicate n (Fin 1)) p); [done|].
      rewrite length_replicate. lia.
Qed.

(** The cells of lines 85-92. *)
Lemma cell_effective_velocity (vx vy : grid) (flow_dir : angle_t) (t p : nat) (a b fd : f64) :
  cell vx t p = Some a → cell vy t p = Some b → angle_at flow_dir p = Some fd →
  cell (effective_velocity vx vy flow_dir) t p =
  Some (fmul (fcos (fsub (arctan2 a b) fd)) (pow_half (fadd (square a) (square b)))).
Proof.
  intros Ha Hb Hfd. unfold effective_velocity.
  rewrite cell_grid_zip, !cell_grid_map, cell_grid_sub, !cell_grid_zip, !cell_grid_map.
  by rewrite Ha, Hb, Hfd.
Qed.

(** ** Runs of vector_to_scalar *)

Lemma vector_to_scalar_run (σ : heap) (self : loc) (ds : Dataset)
    (angle_method : Z) (v_x v_y : string) :
  σ !! self = Some ds →
  vector_to_scalar self angle_method v_x v_y σ =
  match section_angle ds angle_method with
  | inl e => (inl e, σ)
  | inr angle_da =>
      match data_vars ds !! v_x with
      | None => (inl (KeyError v_x), σ)
      | Some vx =>
          match data_vars ds !! v_y with
          | None => (inl (KeyError v_y), σ)
          | Some vy =>
              (inr tt, <[self := with_projection ds (flow_direction angle_da) vx vy]> σ)
          end
      end
  end.
Proof.
  intros Hσ. unfold vector_to_scalar, mbind, M_bind, obj, lift, getitem. rewrite Hσ.
  destruct (section_angle ds angle_method) as [e|angle_da]; [done|].
  destruct (data_vars ds !! v_x) as [vx|]; [|done].
  destruct (data_vars ds !! v_y) as [vy|]; [|done].
  unfold modify. rewrite Hσ, lookup_insert_eq, insert_insert_eq.
  rewrite lookup_insert_eq, insert_insert_eq. done.
Qed.

(** A run that returns has stored the projection for some angle of the section. *)
Lemma vector_to_scalar_returns (σ σ' : heap) (self : loc) (ds : Dataset)
    (angle_method : Z) (v_x v_y : string) :
  σ !! self = Some ds →
  vector_to_scalar self angle_method v_x v_y σ = (inr tt, σ') →
  ∃ angle_da vx vy,
    section_angle ds angle_method = inr angle_da ∧
    data_vars ds !! v_x = Some vx ∧ data_vars ds !! v_y = Some vy ∧
    σ' = <[self := with_projection ds (flow_direction angle_da) vx vy]> σ.
Proof.
  intros Hσ. rewrite (vector_to_scalar_run _ _ _ _ _ _ Hσ).
  destruct (section_angle ds angle_method) as [e|angle_da]; [done|].
  destruct (data_vars ds !! v_x) as [vx|]; [|done].
  destruct (data_vars ds !! v_y) as [vy|]; [|done].
  intros [= <-]. eauto 10.
Qed.

Lemma v_dir_with_projection (ds : Dataset) (flow_dir : angle_t) (vx vy : DataArray grid) :
  v_dir (with_projection ds flow_dir vx vy) =
  Some (mkDataArray (ones_times (n_points ds) flow_dir) v_dir_attrs).
Proof. reflexivity. Qed.

Lemma v_eff_with_projection (ds : Dataset) (flow_dir : angle_t) (vx vy : DataArray grid) :
  data_vars (with_projection ds flow_dir vx vy) !! "v_eff_nofill" =
  Some (mkDataArray (effective_velocity (values vx) (values vy) flow_dir) v_eff_attrs).
Proof. unfold with_projection, set_v_dir_attrs. simpl. apply lookup_insert_eq. Qed.

(** The global mode: one angle, from the first and the last of the points
    with a finite x. *)
Lemma section_angle_global (ds : Dataset) (x_first x_last y_first y_last : f64) :
  head (finite_xs ds) = Some x_first → last (finite_xs ds) = Some x_last →
  head (finite_ys ds) = Some y_first → last (finite_ys ds) = Some y_last →
  section_angle ds 0 =
  inr (AScalar (arctan2 (fsub x_last x_first) (fsub y_last y_first))).
Proof.
  unfold section_angle, finite_xs, finite_ys, first, last_item. intros Hx Hx' Hy Hy'.
  rewrite bool_decide_eq_true_2 by done. rewrite Hx', Hy'.
  destruct (mask _ (coord_x ds)); [done|]. destruct (mask _ (coord_y ds)); [done|].
  by simplify_eq/=.
Qed.



(** In the local mode the angles land in an array over all the points. *)
Lemma section_angle_local (ds : Dataset) (angle_method : Z) (angle_da : angle_t) :
  angle_method ≠ 0%Z → section_angle ds angle_method = inr angle_da →
  ∃ angle,
    angle_da = AArray (mask_assign (isfinite <$> coord_x ds)
                                   (replicate (length (coord_x ds)) NaN) angle).
Proof.
  intros Hm. unfold section_angle. rewrite bool_decide_eq_false_2 by done.
  destruct (angle_loop _ _ _ _ _ _) as [e|angle]; simpl; [done|].
  intros [= <-]. eauto.
Qed.

(** The local mode leaves the points with a non-finite x undefined. *)
Lemma mask_assign_nonfinite (xs angle : list f64) (p : nat) (xp : f64) :
  xs !! p = Some xp → isfinite xp = false →
  mask_assign (isfinite <$> xs) (replicate (length xs) NaN) angle !! p = Some NaN.
Proof.
  intros Hp Hx. rewrite mask_assign_outside.
  - apply lookup_replicate_2. by eapply lookup_lt_Some.
  - by rewrite list_lookup_fmap, Hp; simpl; rewrite Hx.
Qed.

Lemma section_angle_global_inv (ds : Dataset) (angle_da : angle_t) :
  section_angle ds 0 = inr angle_da → ∃ v, angle_da = AScalar v.
Proof.
  unfold section_angle. rewrite bool_decide_eq_true_2 by done.
  destruct (first (mask _ (coord_x ds))) as [|x_left]; simpl; [done|].
  destruct (first (mask _ (coord_y ds))) as [|y_left]; simpl; [done|].
  destruct (last_item (mask _ (coord_x ds))) as [|x_right]; simpl; [done|].
  destruct (last_item (mask _ (coord_y ds))) as [|y_right]; simpl; [done|].
  intros [= <-]. eauto.
Qed.

(** Broadcasting gives every point of the dataset a flow direction. *)
Lemma flow_direction_at (ds : Dataset) (angle_method : Z) (angle_da : angle_t) (p : nat) :
  section_angle ds angle_method = inr angle_da → (p < n_points ds)%nat →
  is_Some (angle_at (flow_direction angle_da) p).
Proof.
  intros Hs Hp. destruct (decide (angle_method = 0%Z)) as [->|Hm].
  - apply section_angle_global_inv in Hs as [v ->]. simpl. eauto.
  - apply section_angle_local in Hs as [angle ->]; [|done]. simpl.
    apply lookup_lt_is_Some_2. by rewrite length_fmap, length_mask_assign, length_replicate.
Qed.

Lemma lookup_self_insert (σ : heap) (self : loc) (ds : Dataset) :
  <[self := ds]> σ !! self = Some ds.
Proof. apply lookup_insert_eq. Qed.

(** ** The claims on vector_to_scalar *)

(** C2. In every (time, point) cell, the effective velocity stored by
    vector_to_scalar is cos(atan2(v_x, v_y) - flow_dir) * sqrt(v_x² + v_y²),
    with the x-component as first argument of atan2 and flow_dir the
    direction stored for that point in "v_dir"; in particular where both
    components and the direction are defined. *)
Theorem effective_velocity_formula (σ σ' : heap) (self : loc) (ds : Dataset)
    (angle_method : Z) (v_x v_y : string) (vx vy : DataArray grid) :
  σ !! self = Some ds →
  data_vars ds !! v_x = Some vx → data_vars ds !! v_y = Some vy →
  vector_to_scalar self angle_method v_x v_y σ = (inr tt, σ') →
  ∃ ds' ve vd,
    σ' !! self = Some ds' ∧
    data_vars ds' !! "v_eff_nofill" = Some ve ∧ v_dir ds' = Some vd ∧
    ∀ (t p : nat) (a b flow_dir : f64),
      cell (values vx) t p = Some a → cell (values vy) t p = Some b →
      values vd !! p = Some flow_dir →
      cell (values ve) t p =
      Some (fmul (fcos (fsub (arctan2 a b) flow_dir))
                 (pow_half (fadd (square a) (square b)))).
Proof.
  intros Hσ Hx Hy Hrun.
  destruct (vector_to_scalar_returns _ _ _ _ _ _ _ Hσ Hrun)
    as (angle_da & vx' & vy' & Hs & Hx' & Hy' & ->).
  simplify_eq. eexists _, _, _. split; [apply lookup_self_insert|].
  split; [apply v_eff_with_projection|]. split; [apply v_dir_with_projection|].
  intros t p a b fd Ha Hb Hfd. simpl in *.
  rewrite lookup_ones_times in Hfd. case_decide; [|done].
  by apply cell_effective_velocity.
Qed.

(** C7. Where v_x or v_y is NaN in a (time, point) cell, "v_eff_nofill" is
    NaN in that cell: the gap is kept, not replaced by zero. *)
Theorem undefined_velocity_propagates (σ σ' : heap) (self : loc) (ds : Dataset)
    (angle_method : Z) (v_x v_y : string) (vx vy : DataArray grid)
    (t p : nat) (a b : f64) :
  σ !! self = Some ds →
  data_vars ds !! v_x = Some vx → data_vars ds !! v_y = Some vy →
  vector_to_scalar self angle_method v_x v_y σ = (inr tt, σ') →
  (p < n_points ds)%nat →
  cell (values vx) t p = Some a → cell (values vy) t p = Some b →
  isnan a || isnan b = true →
  ∃ ds' ve,
    σ' !! self = Some ds' ∧ data_vars ds' !! "v_eff_nofill" = Some ve ∧
    cell (values ve) t p = Some NaN.
Proof.
  intros Hσ Hx Hy Hrun Hp Ha Hb Hnan.
  destruct (vector_to_scalar_returns _ _ _ _ _ _ _ Hσ Hrun)
    as (angle_da & vx' & vy' & Hs & Hx' & Hy' & ->).
  simplify_eq. eexists _, _. split; [apply lookup_self_insert|].
  split; [apply v_eff_with_projection|]. simpl.
  destruct (flow_direction_at _ _ _ _ Hs Hp) as [fd Hfd].
  rewrite (cell_effective_velocity _ _ _ _ _ _ _ _ Ha Hb Hfd).
  by rewrite projection_nan.
Qed.

(** ** The variables of the example datasets *)

Lemma ex_velocity_v_x (vx vy : grid) : ex_velocity vx vy !! "v_x" = Some (mkDataArray vx []).
Proof. apply lookup_insert_eq. Qed.

Lemma ex_velocity_v_y (vx vy : grid) : ex_velocity vx vy !! "v_y" = Some (mkDataArray vy []).
Proof. unfold ex_velocity. rewrite lookup_insert_ne by done. apply lookup_insert_eq. Qed.

(** ** The local mode *)

(** The first point leaves the scan to the left at once, with [angle_left]
    never assigned, and line 77 reads it. *)
Lemma angle_loop_first_point (xs ys : list f64) (x y : f64) (pts : list (f64 * f64))
    (angle : list f64) :
  angle_loop xs ys ((x, y) :: pts) 0 None angle = inl (UnboundLocalError "angle_left").
Proof. reflexivity. Qed.

Lemma section_angle_local_raises (ds : Dataset) (angle_method : Z) :
  angle_method ≠ 0%Z → length (coord_y ds) = length (coord_x ds) →
  (0 < length (finite_xs ds))%nat →
  section_angle ds angle_method = inl (UnboundLocalError "angle_left").
Proof.
  intros Hm Hlen Hn. unfold section_angle. rewrite bool_decide_eq_false_2 by done.
  pose proof (length_mask_fmap isfinite _ _ Hlen) as Hlen'.
  fold (finite_xs ds) (finite_ys ds) in *.
  destruct (finite_xs ds) as [|x xs]; simpl in *; [lia|].
  destruct (finite_ys ds) as [|y ys]; simpl in *; [lia|]. done.
Qed.

(** The local mode raises as soon as one point has a finite x. *)
Lemma local_mode_raises (σ : heap) (self : loc) (ds : Dataset) (angle_method : Z)
    (v_x v_y : string) :
  σ !! self = Some ds → angle_method ≠ 0%Z →
  length (coord_y ds) = length (coord_x ds) → (0 < length (finite_xs ds))%nat →
  vector_to_scalar self angle_method v_x v_y σ =
  (inl (UnboundLocalError "angle_left"), σ).
Proof.
  intros Hσ Hm Hlen Hn. rewrite (vector_to_scalar_run _ _ _ _ _ _ Hσ).
  by rewrite section_angle_local_raises.
Qed.

(** C4, at the section [(0, 0), (1, 0)] in the local mode: the first point
    has no neighbour to its left, and the call raises instead of giving it
    the angle of its right neighbour. *)
Theorem local_mode_first_point_unbound :
  vector_to_scalar 0 1 "v_x" "v_y" {[0%nat := ex_two_points]} =
  (inl (UnboundLocalError "angle_left"), {[0%nat := ex_two_points]}).
Proof.
  apply (local_mode_raises _ _ ex_two_points);
    [apply lookup_singleton_eq | done | done | simpl; lia].
Qed.

(** The scan to the right never takes the last point as the neighbour. *)
Lemma angle_right_next_to_last (xs ys : list f64) (n : nat) (x y : f64) :
  length xs = S (S n) → angle_right_of xs ys n x y = NaN.
Proof.
  intros Hlen. unfold angle_right_of. rewrite Hlen.
  by replace (S (S n) - 1 - (n + 1))%nat with 0%nat by lia.
Qed.

Lemma feqb_1_0 : feqb (Fin 1) (Fin 0) = false.
Proof. simpl. destruct (Req_dec_T 1 0); [lra | done]. Qed.

Lemma Ratan2_1_0 : Ratan2 1 0 = PI / 2.
Proof.
  unfold Ratan2. destruct (Rlt_dec 0 0); [lra|].
  destruct (Rlt_dec 0 1); [done | lra].
Qed.

(** The angle from (0, 0) to (1, 0). *)
Lemma arctan2_east : arctan2 (fsub (Fin 1) (Fin 0)) (fsub (Fin 0) (Fin 0)) = Fin (PI / 2).
Proof.
  simpl. f_equal. replace (1 + - 0) with 1 by lra. replace (0 + - 0) with 0 by lra.
  apply Ratan2_1_0.
Qed.

(** C5, at the section [(0, 0), (1, 0)]: the last point is distinct from
    the first and lies to its right, the angle to it is defined, and the
    right angle of the first point is NaN. *)
Theorem right_angle_skips_last_point :
  angle_right_of [Fin 0; Fin 1] [Fin 0; Fin 0] 0 (Fin 0) (Fin 0) = NaN ∧
  distinct (Fin 1) (Fin 0) (Fin 0) (Fin 0) = true ∧
  arctan2 (fsub (Fin 1) (Fin 0)) (fsub (Fin 0) (Fin 0)) = Fin (PI / 2).
Proof.
  split; [by apply angle_right_next_to_last|]. split; [|apply arctan2_east].
  unfold distinct. by rewrite feqb_1_0.
Qed.

(** ** The direction stored for the points *)

(** What the global mode stores when the filter leaves a point. *)
Lemma global_mode_returns (σ : heap) (self : loc) (ds : Dataset)
    (v_x v_y : string) (vx vy : DataArray grid) (x_first x_last y_first y_last : f64) :
  σ !! self = Some ds →
  data_vars ds !! v_x = Some vx → data_vars ds !! v_y = Some vy →
  head (finite_xs ds) = Some x_first → last (finite_xs ds) = Some x_last →
  head (finite_ys ds) = Some y_first → last (finite_ys ds) = Some y_last →
  vector_to_scalar self 0 v_x v_y σ =
  (inr tt,
   <[self := with_projection ds
       (flow_direction (AScalar (arctan2 (fsub x_last x_first) (fsub y_last y_first))))
       vx vy]> σ).
Proof.
  intros Hσ Hx Hy Hxf Hxl Hyf Hyl.
  rewrite (vector_to_scalar_run _ _ _ _ _ _ Hσ).
  by rewrite (section_angle_global _ _ _ _ _ Hxf Hxl Hyf Hyl), Hx, Hy.
Qed.

(** The local mode returns when no point has a finite x. *)
Lemma local_mode_returns (σ : heap) (self : loc) (ds : Dataset) (angle_method : Z)
    (v_x v_y : string) (vx vy : DataArray grid) :
  σ !! self = Some ds → angle_method ≠ 0%Z → finite_xs ds = [] →
  data_vars ds !! v_x = Some vx → data_vars ds !! v_y = Some vy →
  vector_to_scalar self angle_method v_x v_y σ =
  (inr tt,
   <[self := with_projection ds
       (flow_direction
          (AArray (mask_assign (isfinite <$> coord_x ds)
                               (replicate (length (coord_x ds)) NaN)
                               (replicate (length (finite_ys ds)) (Fin 0)))))
       vx vy]> σ).
Proof.
  intros Hσ Hm Hxs Hx Hy. rewrite (vector_to_scalar_run _ _ _ _ _ _ Hσ).
  unfold section_angle. rewrite bool_decide_eq_false_2 by done.
  fold (finite_xs ds) (finite_ys ds). rewrite Hxs. simpl. by rewrite Hx, Hy.
Qed.

(** C6 as stated fails in the global mode: in [ex_gap] the x of point 1 is
    NaN, and its stored flow direction is a number. *)
Lemma nonfinite_point_has_direction :
  ∃ σ' ds' vd d,
    vector_to_scalar 0 0 "v_x" "v_y" {[0%nat := ex_gap]} = (inr tt, σ') ∧
    σ' !! 0%nat = Some ds' ∧
    coord_x ex_gap !! 1%nat = Some NaN ∧
    v_dir ds' = Some vd ∧ values vd !! 1%nat = Some d ∧ d = Fin 0.
Proof.
  eexists _, _, _, _. split.
  { eapply (global_mode_returns _ _ ex_gap);
      [apply lookup_singleton_eq | apply ex_velocity_v_x | apply ex_velocity_v_y
      | reflexivity ..]. }
  split; [apply lookup_self_insert|]. split; [done|].
  split; [apply v_dir_with_projection|]. split; [reflexivity|].
  rewrite fmul_1_l, arctan2_east, half_pi_eq. simpl. f_equal. lra.
Qed.

(** ** The theorems at the example datasets *)

Lemma ex_two_points_run :
  vector_to_scalar 0 0 "v_x" "v_y" {[0%nat := ex_two_points]} =
  (inr tt, <[0%nat := ex_two_points_projected]> {[0%nat := ex_two_points]}).
Proof.
  apply (global_mode_returns _ _ ex_two_points);
    [apply lookup_singleton_eq | apply ex_velocity_v_x | apply ex_velocity_v_y
    | reflexivity ..].
Defined.

Lemma effective_velocity_formula_witness :
  vector_to_scalar 0 0 "v_x" "v_y" {[0%nat := ex_two_points]} =
    (inr tt, <[0%nat := ex_two_points_projected]> {[0%nat := ex_two_points]}) ∧
  ∃ ds' ve vd,
    (<[0%nat := ex_two_points_projected]> {[0%nat := ex_two_points]} : heap) !! 0%nat = Some ds' ∧
    data_vars ds' !! "v_eff_nofill" = Some ve ∧ v_dir ds' = Some vd ∧
    ∀ (t p : nat) (a b flow_dir : f64),
      cell [[Fin 1; NaN]] t p = Some a → cell [[Fin 1; Fin 1]] t p = Some b →
      values vd !! p = Some flow_dir →
      cell (values ve) t p =
      Some (fmul (fcos (fsub (arctan2 a b) flow_dir))
                 (pow_half (fadd (square a) (square b)))).
Proof.
  split; [exact ex_two_points_run|].
  exact (effective_velocity_formula {[0%nat := ex_two_points]} _ 0%nat ex_two_points 0
           "v_x" "v_y" _ _ (lookup_singleton_eq _ _) (ex_velocity_v_x _ _)
           (ex_velocity_v_y _ _) ex_two_points_run).
Defined.

Lemma undefined_velocity_propagates_witness :
  cell [[Fin 1; NaN]] 0 1 = Some NaN ∧ cell [[Fin 1; Fin 1]] 0 1 = Some (Fin 1) ∧
  ∃ ds' ve,
    (<[0%nat := ex_two_points_projected]> {[0%nat := ex_two_points]} : heap) !! 0%nat = Some ds' ∧
    data_vars ds' !! "v_eff_nofill" = Some ve ∧
    cell (values ve) 0 1 = Some NaN.
Proof.
  split; [reflexivity|]. split; [reflexivity|].
  refine (undefined_velocity_propagates {[0%nat := ex_two_points]} _ 0%nat ex_two_points 0
            "v_x" "v_y" _ _ 0%nat 1%nat NaN (Fin 1) (lookup_singleton_eq _ _)
            (ex_velocity_v_x _ _) (ex_velocity_v_y _ _) ex_two_points_run _ eq_refl
            eq_refl eq_refl).
  unfold n_points. simpl. lia.
Defined.

Lemma ex_no_finite_run :
  ∃ σ', vector_to_scalar 0 1 "v_x" "v_y" {[0%nat := ex_no_finite]} = (inr tt, σ').
Proof.
  eexists. apply (local_mode_returns _ _ ex_no_finite);
    [apply lookup_singleton_eq | done | reflexivity
    | apply ex_velocity_v_x | apply ex_velocity_v_y].
Defined.

(** ** get_river_flow *)

Lemma get_river_flow_run (σ : heap) (self : loc) (ds : Dataset) :
  σ !! self = Some ds →
  get_river_flow self σ =
  match data_vars ds !! "q" with
  | None => (inl (ValueError q_missing), σ)
  | Some q => (inr tt, <[self := with_river_flow ds q]> σ)
  end.
Proof.
  intros Hσ. unfold get_river_flow, mbind, M_bind, obj, contains, getitem. rewrite Hσ.
  destruct (data_vars ds !! "q") as [q|] eqn:Hq.
  - rewrite bool_decide_eq_true_2 by eauto. simpl. unfold lift, modify. by rewrite Hσ.
  - rewrite bool_decide_eq_false_2 by (by intros [? ?]). done.
Qed.

Lemma trapz_cons (y0 y1 x0 x1 : f64) (y x : list f64) :
  trapz (y0 :: y1 :: y) (x0 :: x1 :: x) =
  fadd (fmul (fmul (fsub x1 x0) (Fin (1 / 2))) (fadd y1 y0)) (trapz (y1 :: y) (x1 :: x)).
Proof. reflexivity. Qed.

Lemma trapz_short_x (y : list f64) (x0 : f64) : trapz y [x0] = Fin 0.
Proof. reflexivity. Qed.

Lemma trapz_short_y (y0 : f64) (x : list f64) : trapz [y0] x = Fin 0.
Proof.
  unfold trapz. simpl.
  by destruct (_ <$> zip_with fsub (tail x) (removelast x)).
Qed.

Lemma trapz_nil_y (x : list f64) : trapz [] x = Fin 0.
Proof.
  unfold trapz. simpl.
  by destruct (_ <$> zip_with fsub (tail x) (removelast x)).
Qed.

(** On finite values, xarray's rule is the trapezoidal rule of the reals. *)
Lemma trapz_finite (s y : list R) :
  trapz (Fin <$> y) (Fin <$> s) = Fin (Rtrapezoid s y).
Proof.
  revert y. induction s as [|s0 s IH]; intros y.
  { by destruct y. }
  destruct y as [|y0 y]; [by rewrite trapz_nil_y|].
  destruct s as [|s1 s]; [destruct y; apply (trapz_short_x _ (Fin s0))|].
  destruct y as [|y1 y]; [apply (trapz_short_y (Fin y0))|].
  change (trapz (Fin y0 :: Fin y1 :: (Fin <$> y)) (Fin s0 :: Fin s1 :: (Fin <$> s)) =
          Fin ((s1 - s0) * (y0 + y1) / 2 + Rtrapezoid (s1 :: s) (y1 :: y))).
  rewrite trapz_cons.
  change (trapz (Fin y1 :: (Fin <$> y)) (Fin s1 :: (Fin <$> s)))
    with (trapz (Fin <$> y1 :: y) (Fin <$> s1 :: s)).
  rewrite IH. simpl. f_equal. lra.
Qed.

Lemma Rtrapezoid_zero (s y : list R) : Forall (λ v, v = 0) y → Rtrapezoid s y = 0.
Proof.
  revert y. induction s as [|s0 s IH]; intros y Hy; [done|].
  destruct y as [|y0 y]; [done|]. inversion_clear Hy as [|?? -> Hy'].
  destruct s as [|s1 s]; [done|]. destruct y as [|y1 y]; [done|].
  change (Rtrapezoid (s0 :: s1 :: s) (0 :: y1 :: y))
    with ((s1 - s0) * (0 + y1) / 2 + Rtrapezoid (s1 :: s) (y1 :: y)).
  rewrite (IH _ Hy'). inversion_clear Hy' as [|?? -> _]. lra.
Qed.

(** A row of zeros integrates to zero. *)
Lemma trapz_zero (row : list f64) (s : list R) :
  (∀ v, v ∈ row → v = Fin 0) →
  trapz (fillna (Fin 0) <$> row) (Fin <$> s) = Fin 0.
Proof.
  intros Hrow.
  assert (fillna (Fin 0) <$> row = Fin <$> replicate (length row) 0) as ->.
  { induction row as [|v row IH]; [done|]. simpl.
    rewrite (Hrow v) by set_solver. simpl. f_equal. apply IH.
    intros w Hw. apply Hrow. set_solver. }
  rewrite trapz_finite, Rtrapezoid_zero; [done|].
  apply Forall_forall. by intros v [-> _]%elem_of_replicate.
Qed.

Lemma river_flow_with_river_flow (ds : Dataset) (q : DataArray grid) :
  river_flow (with_river_flow ds q) =
  Some (mkDataArray (integrate_width (values q) (scoords ds)) river_flow_attrs).
Proof. reflexivity. Qed.

(** C8. get_river_flow raises exactly when "q" is not in the dataset; the
    message of the error names "q" and the call that creates it,
    ds.transect.get_q; and the store is then as it was before the call. *)
Theorem get_river_flow_raises_iff (σ : heap) (self : loc) (ds : Dataset) :
  σ !! self = Some ds →
  ((∃ e, (get_river_flow self σ).1 = inl e) ↔ data_vars ds !! "q" = None) ∧
  (∀ e, (get_river_flow self σ).1 = inl e →
        e = ValueError q_missing ∧ (get_river_flow self σ).2 = σ) ∧
  occurs (dquote +:+ "q" +:+ dquote) q_missing = true ∧
  occurs "ds.transect.get_q" q_missing = true.
Proof.
  intros Hσ. rewrite (get_river_flow_run _ _ _ Hσ).
  destruct (data_vars ds !! "q") as [q|]; simpl.
  - split; [split; [by intros [e ?] | done]|]. split; [done|]. by split.
  - split; [split; [done | eauto]|]. split; [by intros e [= <-]|]. by split.
Qed.

(** C10. When "q" is in the dataset, get_river_flow returns, and the
    dataset differs from the one before the call in "river_flow" only: "q",
    every other variable and every coordinate are as they were, and so is
    every other dataset of the store. *)
Theorem get_river_flow_frame (σ : heap) (self : loc) (ds : Dataset) (q : DataArray grid) :
  σ !! self = Some ds → data_vars ds !! "q" = Some q →
  ∃ σ' ds' Q,
    get_river_flow self σ = (inr tt, σ') ∧
    σ' !! self = Some ds' ∧ ds' = set_river_flow Q ds ∧
    river_flow ds' = Some Q ∧
    data_vars ds' = data_vars ds ∧ data_vars ds' !! "q" = Some q ∧
    v_dir ds' = v_dir ds ∧
    coord_x ds' = coord_x ds ∧ coord_y ds' = coord_y ds ∧ scoords ds' = scoords ds ∧
    xcoords ds' = xcoords ds ∧ ycoords ds' = ycoords ds ∧ zcoords ds' = zcoords ds ∧
    h_a ds' = h_a ds ∧
    ∀ l : loc, l ≠ self → σ' !! l = σ !! l.
Proof.
  intros Hσ Hq. eexists _, _, _.
  split. { rewrite (get_river_flow_run _ _ _ Hσ), Hq. done. }
  split; [apply lookup_self_insert|]. split; [reflexivity|].
  repeat (split; [done|]). intros l Hl. by rewrite lookup_insert_ne.
Qed.

Lemma ex_flux_q :
  data_vars ex_flux !! "q" = Some (mkDataArray [[Fin 2; Fin 2; Fin 2]; [Fin 2; NaN; Fin 2]] []).
Proof. apply lookup_insert_eq. Qed.

Lemma get_river_flow_raises_iff_witness :
  ((∃ e, (get_river_flow 0 {[0%nat := ex_no_flux]}).1 = inl e) ↔
   data_vars ex_no_flux !! "q" = None) ∧
  (∀ e, (get_river_flow 0 {[0%nat := ex_no_flux]}).1 = inl e →
        e = ValueError q_missing ∧
        (get_river_flow 0 {[0%nat := ex_no_flux]}).2 = {[0%nat := ex_no_flux]}) ∧
  occurs (dquote +:+ "q" +:+ dquote) q_missing = true ∧
  occurs "ds.transect.get_q" q_missing = true.
Proof.
  exact (get_river_flow_raises_iff {[0%nat := ex_no_flux]} 0%nat ex_no_flux
           (lookup_singleton_eq _ _)).
Defined.

Lemma get_river_flow_frame_witness :
  ∃ σ' ds' Q,
    get_river_flow 0 {[0%nat := ex_flux]} = (inr tt, σ') ∧
    σ' !! 0%nat = Some ds' ∧ ds' = set_river_flow Q ex_flux ∧
    river_flow ds' = Some Q ∧
    data_vars ds' = data_vars ex_flux ∧
    data_vars ds' !! "q" =
      Some (mkDataArray [[Fin 2; Fin 2; Fin 2]; [Fin 2; NaN; Fin 2]] []) ∧
    v_dir ds' = v_dir ex_flux ∧
    coord_x ds' = coord_x ex_flux ∧ coord_y ds' = coord_y ex_flux ∧
    scoords ds' = scoords ex_flux ∧
    xcoords ds' = xcoords ex_flux ∧ ycoords ds' = ycoords ex_flux ∧
    zcoords ds' = zcoords ex_flux ∧ h_a ds' = h_a ex_flux ∧
    ∀ l : loc, l ≠ 0%nat → σ' !! l = ({[0%nat := ex_flux]} : heap) !! l.
Proof.
  exact (get_river_flow_frame {[0%nat := ex_flux]} 0%nat ex_flux _
           (lookup_singleton_eq _ _) ex_flux_q).
Defined.

(** The scenario of section 8: q = 2 at five points one unit apart. *)
Example river_flow_uniform :
  integrate_width [[Fin 2; Fin 2; Fin 2; Fin 2; Fin 2]] [0; 1; 2; 3; 4] = [Fin 8].
Proof.
  change ([trapz (Fin <$> [2; 2; 2; 2; 2]) (Fin <$> [0; 1; 2; 3; 4])] = [Fin 8]).
  rewrite trapz_finite. simpl. do 2 f_equal. lra.
Qed.

(** ** get_q *)

Section GetQFrame.

Variable quantile : list f64 → Dataset → Dataset.
Variable velocity_fill :
  grid → grid → grid → DataArray grid → f64 → f64 → list f64 → string → DataArray grid.
Variable depth_integrate :
  grid → DataArray grid → f64 → f64 → list f64 → f64 → string → DataArray grid.
Variables z_0 h_ref : f64.

Lemma get_q_run (σ : heap) (self : loc) (ds : Dataset) (v_corr : f64)
    (quantiles : list f64) :
  σ !! self = Some ds →
  get_q quantile velocity_fill depth_integrate z_0 h_ref self v_corr quantiles σ =
  let new := fresh (dom σ) in
  let d := quantile quantiles ds in
  match data_vars d !! "v_eff_nofill" with
  | None => (inl (KeyError "v_eff_nofill"), <[new := d]> σ)
  | Some v => (inr new, <[new := q_dataset velocity_fill depth_integrate z_0 h_ref d v v_corr]> σ)
  end.
Proof.
  intros Hσ. unfold get_q, mbind, M_bind, obj, alloc. rewrite Hσ. simpl.
  rewrite lookup_insert_eq. unfold lift, getitem.
  destruct (data_vars (quantile quantiles ds) !! "v_eff_nofill") as [v|] eqn:Hv; [|done].
  unfold modify. rewrite lookup_insert_eq, insert_insert_eq, lookup_insert_eq.
  unfold set_data_var at 1. simpl. rewrite lookup_insert_ne by done. rewrite Hv.
  rewrite lookup_insert_eq, insert_insert_eq, lookup_insert_eq.
  unfold set_data_var at 1. simpl. rewrite lookup_insert_ne by done.
  rewrite lookup_insert_eq. rewrite lookup_insert_eq, insert_insert_eq. done.
Qed.

Lemma fresh_loc_unused (σ : heap) : σ !! fresh (dom σ) = None.
Proof. apply not_elem_of_dom, is_fresh. Qed.

End GetQFrame.

Lemma ex_series_reduced :
  data_vars (ex_quantile [Fin (1 / 2)] ex_series) !! "v_eff_nofill" =
  Some (mkDataArray [[Fin 1; NaN]] []).
Proof.
  unfold ex_quantile, ex_series. simpl. rewrite lookup_fmap, lookup_insert_eq. done.
Qed.

(** * The claims that depend on the filter, the fill and the reduction *)

(** ** The points that pass the filter *)

Lemma isfinite_false (a : f64) : (∀ r, a ≠ Fin r) → isfinite a = false.
Proof. destruct a as [| |r]; [done | done |]. intros H. by destruct (H r). Qed.

Lemma mask_none_finite {A} (xs : list f64) (ys : list A) :
  (∀ (k : nat) (r : R), xs !! k ≠ Some (Fin r)) → mask (isfinite <$> xs) ys = [].
Proof.
  revert ys. induction xs as [|x xs IH]; intros ys H; [done|].
  destruct ys as [|y ys]; [done|]. rewrite fmap_cons. simpl.
  rewrite isfinite_false by (intros r ->; by apply (H 0%nat r)).
  apply IH. intros k r. apply (H (S k) r).
Qed.

(** The first entry that the mask keeps is the entry of the first point
    with a finite x. *)
Lemma head_mask_first {A} (xs : list f64) (ys : list A) (i : nat) (r : R) (y : A) :
  xs !! i = Some (Fin r) → ys !! i = Some y →
  (∀ (k : nat) (r' : R), (k < i)%nat → xs !! k ≠ Some (Fin r')) →
  head (mask (isfinite <$> xs) ys) = Some y.
Proof.
  revert ys i. induction xs as [|x xs IH]; intros ys i Hx Hy Hlt; [done|].
  destruct ys as [|y0 ys]; [done|]. rewrite fmap_cons. destruct i as [|i]; simpl in *.
  - by simplify_eq.
  - rewrite isfinite_false by (intros r' ->; apply (Hlt 0%nat r'); [lia | done]).
    apply (IH ys i); [done | done |]. intros k r' Hk. apply (Hlt (S k) r'). lia.
Qed.

(** The last entry that the mask keeps is the entry of the last point with
    a finite x. *)
Lemma last_mask_last {A} (xs : list f64) (ys : list A) (j : nat) (r : R) (y : A) :
  xs !! j = Some (Fin r) → ys !! j = Some y →
  (∀ (k : nat) (r' : R), (j < k)%nat → xs !! k ≠ Some (Fin r')) →
  last (mask (isfinite <$> xs) ys) = Some y.
Proof.
  revert ys j. induction xs as [|x xs IH]; intros ys j Hx Hy Hgt; [done|].
  destruct ys as [|y0 ys]; [done|]. rewrite fmap_cons. destruct j as [|j]; simpl in *.
  - simplify_eq. simpl. rewrite mask_none_finite; [done|].
    intros k r'. apply (Hgt (S k) r'). lia.
  - assert (last (mask (isfinite <$> xs) ys) = Some y) as Hl.
    { apply (IH ys j); [done | done |]. intros k r' Hk. apply (Hgt (S k) r'). lia. }
    destruct (isfinite x); [|done]. rewrite last_cons. by rewrite Hl.
Qed.

(** The angle of the global mode, from the first and the last point with a
    finite x, whatever lies before, between and after them. *)
Lemma section_angle_first_last (ds : Dataset) (i j : nat) (xf xl : R) (y_first y_last : f64) :
  coord_x ds !! i = Some (Fin xf) → coord_y ds !! i = Some y_first →
  (∀ (k : nat) (r : R), (k < i)%nat → coord_x ds !! k ≠ Some (Fin r)) →
  coord_x ds !! j = Some (Fin xl) → coord_y ds !! j = Some y_last →
  (∀ (k : nat) (r : R), (j < k)%nat → coord_x ds !! k ≠ Some (Fin r)) →
  section_angle ds 0 =
  inr (AScalar (arctan2 (fsub (Fin xl) (Fin xf)) (fsub y_last y_first))).
Proof.
  intros Hxi Hyi Hi Hxj Hyj Hj. apply section_angle_global.
  - by apply (head_mask_first _ _ i xf).
  - by apply (last_mask_last _ _ j xl).
  - by apply (head_mask_first _ _ i xf).
  - by apply (last_mask_last _ _ j xl).
Qed.

Lemma ones_times_scalar (n : nat) (v : f64) :
  ones_times n (flow_direction (AScalar v)) = replicate n (fsub v (Fin (PI / 2))).
Proof.
  unfold ones_times, flow_direction, angle_map.
  by rewrite fmap_replicate, fmul_1_l, half_pi_eq.
Qed.

(** C3. In the global mode (angle_method = 0) the one angle of the section
    is atan2(x_last - x_first, y_last - y_first), taken between the first
    and the last of the points of the sequence whose x is finite, the points
    with a non-finite x before, between and after them left out, and "v_dir"
    holds that angle minus π/2 at every point of the sequence; so for every
    sequence with at least two points of finite x. *)
Theorem global_mode_direction (σ : heap) (self : loc) (ds : Dataset)
    (v_x v_y : string) (vx vy : DataArray grid)
    (i j : nat) (x_first x_last : R) (y_first y_last : f64) :
  σ !! self = Some ds →
  data_vars ds !! v_x = Some vx → data_vars ds !! v_y = Some vy →
  coord_x ds !! i = Some (Fin x_first) → coord_y ds !! i = Some y_first →
  (∀ (k : nat) (r : R), (k < i)%nat → coord_x ds !! k ≠ Some (Fin r)) →
  coord_x ds !! j = Some (Fin x_last) → coord_y ds !! j = Some y_last →
  (∀ (k : nat) (r : R), (j < k)%nat → coord_x ds !! k ≠ Some (Fin r)) →
  ∃ σ' ds' vd,
    vector_to_scalar self 0 v_x v_y σ = (inr tt, σ') ∧
    σ' !! self = Some ds' ∧ v_dir ds' = Some vd ∧
    values vd =
      replicate (length (coord_x ds))
        (fsub (arctan2 (fsub (Fin x_last) (Fin x_first)) (fsub y_last y_first))
              (Fin (PI / 2))).
Proof.
  intros Hσ Hx Hy Hxi Hyi Hi Hxj Hyj Hj.
  pose proof (section_angle_first_last _ _ _ _ _ _ _ Hxi Hyi Hi Hxj Hyj Hj) as Hs.
  eexists _, _, _.
  split. { rewrite (vector_to_scalar_run _ _ _ _ _ _ Hσ), Hs, Hx, Hy. done. }
  split; [apply lookup_self_insert|]. split; [apply v_dir_with_projection|].
  cbn [values]. apply ones_times_scalar.
Qed.

Lemma ex_banks_before (k : nat) (r : R) : (k < 1)%nat → coord_x ex_banks !! k ≠ Some (Fin r).
Proof. intros Hk. by replace k with 0%nat by lia. Qed.

Lemma ex_banks_after (k : nat) (r : R) : (3 < k)%nat → coord_x ex_banks !! k ≠ Some (Fin r).
Proof.
  intros Hk. do 4 (destruct k as [|k]; [lia|]). by destruct k.
Qed.

(** At [ex_banks] the angle is taken from points 1 and 3, (0, 0) and (1, 0):
    it is π/2, and the direction is 0 at all five points. *)
Lemma global_mode_direction_witness :
  ∃ σ' ds' vd,
    vector_to_scalar 0 0 "v_x" "v_y" {[0%nat := ex_banks]} = (inr tt, σ') ∧
    σ' !! 0%nat = Some ds' ∧ v_dir ds' = Some vd ∧
    values vd = replicate 5 (fsub (arctan2 (fsub (Fin 1) (Fin 0)) (fsub (Fin 0) (Fin 0)))
                                  (Fin (PI / 2))) ∧
    values vd = [Fin 0; Fin 0; Fin 0; Fin 0; Fin 0].
Proof.
  destruct (global_mode_direction {[0%nat := ex_banks]} 0%nat ex_banks "v_x" "v_y" _ _
              1 3 0 1 (Fin 0) (Fin 0) (lookup_singleton_eq _ _)
              (ex_velocity_v_x _ _) (ex_velocity_v_y _ _) eq_refl eq_refl ex_banks_before
              eq_refl eq_refl ex_banks_after) as (σ' & ds' & vd & Hrun & Hσ' & Hvd & Hval).
  exists σ', ds', vd. do 4 (split; [done|]).
  rewrite Hval, arctan2_east. simpl. repeat f_equal; lra.
Defined.

(** C6, amended. "v_dir" has one entry per point of the unfiltered
    sequence. In the global mode the points with a non-finite x are left out
    of the angle, which is taken between the first and the last point with a
    finite x, and every point, those with a non-finite x included, gets that
    angle minus π/2; in the local mode, when the call returns, every point
    with a non-finite x has NaN. *)
Theorem v_dir_over_all_points (σ σ' : heap) (self : loc) (ds : Dataset)
    (angle_method : Z) (v_x v_y : string) :
  σ !! self = Some ds →
  vector_to_scalar self angle_method v_x v_y σ = (inr tt, σ') →
  ∃ ds' vd,
    σ' !! self = Some ds' ∧ v_dir ds' = Some vd ∧
    length (values vd) = length (coord_x ds) ∧
    (angle_method = 0%Z →
     ∀ (i j : nat) (x_first x_last : R) (y_first y_last : f64),
       coord_x ds !! i = Some (Fin x_first) → coord_y ds !! i = Some y_first →
       (∀ (k : nat) (r : R), (k < i)%nat → coord_x ds !! k ≠ Some (Fin r)) →
       coord_x ds !! j = Some (Fin x_last) → coord_y ds !! j = Some y_last →
       (∀ (k : nat) (r : R), (j < k)%nat → coord_x ds !! k ≠ Some (Fin r)) →
       ∀ p : nat, (p < length (coord_x ds))%nat →
         values vd !! p =
         Some (fsub (arctan2 (fsub (Fin x_last) (Fin x_first)) (fsub y_last y_first))
                    (Fin (PI / 2)))) ∧
    (angle_method ≠ 0%Z →
     ∀ (p : nat) (xp : f64),
       coord_x ds !! p = Some xp → (∀ r : R, xp ≠ Fin r) → values vd !! p = Some NaN).
Proof.
  intros Hσ Hrun.
  destruct (vector_to_scalar_returns _ _ _ _ _ _ _ Hσ Hrun)
    as (angle_da & vx & vy & Hs & Hx & Hy & ->).
  eexists _, _. split; [apply lookup_self_insert|].
  split; [apply v_dir_with_projection|]. cbn [values]. split; [|split].
  - destruct (decide (angle_method = 0%Z)) as [->|Hm].
    + apply section_angle_global_inv in Hs as [v ->]. simpl.
      by rewrite length_fmap, length_replicate.
    + apply section_angle_local in Hs as [angle ->]; [|done]. simpl.
      rewrite length_zip_with, length_replicate, length_fmap, length_mask_assign,
        length_replicate. unfold n_points. lia.
  - intros -> i j x_first x_last y_first y_last Hxi Hyi Hi Hxj Hyj Hj p Hp.
    rewrite (section_angle_first_last _ _ _ _ _ _ _ Hxi Hyi Hi Hxj Hyj Hj) in Hs.
    simplify_eq. rewrite ones_times_scalar. by apply lookup_replicate_2.
  - intros Hm p xp Hp Hfin. apply section_angle_local in Hs as [angle ->]; [|done].
    rewrite lookup_ones_times. rewrite decide_True by by eapply lookup_lt_Some.
    simpl. rewrite list_lookup_fmap.
    by rewrite (mask_assign_nonfinite _ _ _ _ Hp (isfinite_false _ Hfin)).
Qed.

Lemma ex_banks_run :
  ∃ σ', vector_to_scalar 0 0 "v_x" "v_y" {[0%nat := ex_banks]} = (inr tt, σ').
Proof.
  eexists. eapply (global_mode_returns _ _ ex_banks);
    [apply lookup_singleton_eq | apply ex_velocity_v_x | apply ex_velocity_v_y
    | reflexivity ..].
Defined.

(** At [ex_banks] in the global mode, point 0, whose x is NaN, has the
    direction 0 of the section between points 1 and 3; at [ex_no_finite] in
    the local mode, both points have NaN. *)
Lemma v_dir_over_all_points_witness :
  (∃ σ' ds' vd,
     vector_to_scalar 0 0 "v_x" "v_y" {[0%nat := ex_banks]} = (inr tt, σ') ∧
     σ' !! 0%nat = Some ds' ∧ v_dir ds' = Some vd ∧
     length (values vd) = 5%nat ∧
     coord_x ex_banks !! 0%nat = Some NaN ∧ values vd !! 0%nat = Some (Fin 0)) ∧
  (∃ σ' ds' vd,
     vector_to_scalar 0 1 "v_x" "v_y" {[0%nat := ex_no_finite]} = (inr tt, σ') ∧
     σ' !! 0%nat = Some ds' ∧ v_dir ds' = Some vd ∧
     length (values vd) = 2%nat ∧
     coord_x ex_no_finite !! 1%nat = Some (Inf false) ∧ values vd !! 1%nat = Some NaN).
Proof.
  split.
  - destruct ex_banks_run as [σ' Hrun].
    destruct (v_dir_over_all_points {[0%nat := ex_banks]} σ' 0%nat ex_banks 0 "v_x" "v_y"
                (lookup_singleton_eq _ _) Hrun) as (ds' & vd & Hσ' & Hvd & Hlen & Hg & _).
    exists σ', ds', vd. do 4 (split; [done|]). split; [done|].
    rewrite (Hg eq_refl 1%nat 3%nat 0 1 (Fin 0) (Fin 0) eq_refl eq_refl ex_banks_before
               eq_refl eq_refl ex_banks_after 0%nat) by (simpl; lia).
    rewrite arctan2_east. simpl. do 2 f_equal. lra.
  - destruct ex_no_finite_run as [σ' Hrun].
    destruct (v_dir_over_all_points {[0%nat := ex_no_finite]} σ' 0%nat ex_no_finite 1
                "v_x" "v_y" (lookup_singleton_eq _ _) Hrun)
      as (ds' & vd & Hσ' & Hvd & Hlen & _ & Hl).
    exists σ', ds', vd. do 4 (split; [done|]). split; [done|].
    by apply (Hl ltac:(done) 1%nat (Inf false)).
Defined.

(** ** The claims on get_river_flow *)

Lemma fillna_zero (a : f64) :
  fillna (Fin 0) a = match a with NaN => Fin 0 | _ => a end.
Proof. by destruct a. Qed.

(** A row whose NaN are read as 0 and whose other entries are finite. *)
Lemma zero_filled_row (row : list f64) (r : list R) :
  Forall2 (λ (v : f64) (x : R), v = NaN ∧ x = 0 ∨ v = Fin x) row r →
  fillna (Fin 0) <$> row = Fin <$> r.
Proof.
  induction 1 as [|v x row r [[-> ->]| ->] _ IH]; [done|..];
    by rewrite !fmap_cons, IH.
Qed.

(** C1. With "q" over (quantile, points), get_river_flow stores in
    "river_flow" one value per quantile: the trapezoidal integral over
    "scoords" of the row of q in which every NaN is replaced by 0.0. For a
    row of NaN and finite values this is the trapezoidal rule of the reals on
    the row with 0 at the NaN, and where q is zero at every point the value
    is 0 for every quantile. *)
Theorem river_flow_is_trapezoid (σ : heap) (self : loc) (ds : Dataset) (q : DataArray grid) :
  σ !! self = Some ds → data_vars ds !! "q" = Some q →
  ∃ σ' ds' Q,
    get_river_flow self σ = (inr tt, σ') ∧
    σ' !! self = Some ds' ∧ river_flow ds' = Some Q ∧
    length (values Q) = length (values q) ∧
    (∀ (k : nat) (row : list f64),
       values q !! k = Some row →
       values Q !! k =
       Some (trapz ((λ v : f64, match v with NaN => Fin 0 | _ => v end) <$> row)
                   (Fin <$> scoords ds))) ∧
    (∀ (k : nat) (row : list f64) (r : list R),
       values q !! k = Some row →
       Forall2 (λ (v : f64) (x : R), v = NaN ∧ x = 0 ∨ v = Fin x) row r →
       values Q !! k = Some (Fin (Rtrapezoid (scoords ds) r))) ∧
    ((∀ (row : list f64) (v : f64), row ∈ values q → v ∈ row → v = Fin 0) →
     ∀ Qk : f64, Qk ∈ values Q → Qk = Fin 0).
Proof.
  intros Hσ Hq. eexists _, _, _.
  split. { rewrite (get_river_flow_run _ _ _ Hσ), Hq. done. }
  split; [apply lookup_self_insert|]. split; [apply river_flow_with_river_flow|].
  cbn [values]. unfold integrate_width. split; [by rewrite length_fmap|].
  split; [|split].
  - intros k row Hk. rewrite list_lookup_fmap, Hk. simpl. do 2 f_equal.
    apply list_fmap_ext. intros _ v _. apply fillna_zero.
  - intros k row r Hk Hr.
    by rewrite list_lookup_fmap, Hk; simpl; rewrite (zero_filled_row _ _ Hr), trapz_finite.
  - intros Hzero Qk (row & -> & Hrow)%list_elem_of_fmap.
    apply trapz_zero. intros v Hv. by eapply Hzero.
Qed.

Lemma ex_zero_flux_q :
  data_vars ex_zero_flux !! "q" =
  Some (mkDataArray [[Fin 0; Fin 0; Fin 0]; [Fin 0; Fin 0; Fin 0]] []).
Proof. apply lookup_insert_eq. Qed.

Lemma ex_zero_flux_rows (row : list f64) (v : f64) :
  row ∈ [[Fin 0; Fin 0; Fin 0]; [Fin 0; Fin 0; Fin 0]] → v ∈ row → v = Fin 0.
Proof.
  intros Hrow Hv. repeat (apply elem_of_cons in Hrow as [->|Hrow]);
    [| |by apply elem_of_nil in Hrow];
    repeat (apply elem_of_cons in Hv as [->|Hv]); try done; by apply elem_of_nil in Hv.
Defined.

(** At [ex_flux], q = [2, 2, 2] and [2, NaN, 2] over the stations 0, 1, 2:
    the discharges are 4 and 2. At [ex_zero_flux] both are 0. *)
Lemma river_flow_is_trapezoid_witness :
  (∃ σ' ds' Q,
     get_river_flow 0 {[0%nat := ex_flux]} = (inr tt, σ') ∧
     σ' !! 0%nat = Some ds' ∧ river_flow ds' = Some Q ∧
     length (values Q) = 2%nat ∧
     values Q !! 0%nat = Some (Fin 4) ∧ values Q !! 1%nat = Some (Fin 2)) ∧
  (∃ σ' ds' Q,
     get_river_flow 0 {[0%nat := ex_zero_flux]} = (inr tt, σ') ∧
     σ' !! 0%nat = Some ds' ∧ river_flow ds' = Some Q ∧
     length (values Q) = 2%nat ∧ ∀ Qk : f64, Qk ∈ values Q → Qk = Fin 0).
Proof.
  split.
  - destruct (river_flow_is_trapezoid {[0%nat := ex_flux]} 0%nat ex_flux _
                (lookup_singleton_eq _ _) ex_flux_q)
      as (σ' & ds' & Q & Hrun & Hσ' & HQ & Hlen & _ & Hreal & _).
    exists σ', ds', Q. do 4 (split; [done|]). split.
    + rewrite (Hreal 0%nat [Fin 2; Fin 2; Fin 2] [2; 2; 2] eq_refl).
      * simpl. do 2 f_equal. lra.
      * repeat constructor; by right.
    + rewrite (Hreal 1%nat [Fin 2; NaN; Fin 2] [2; 0; 2] eq_refl).
      * simpl. do 2 f_equal. lra.
      * repeat constructor; (by right) || (by left).
  - destruct (river_flow_is_trapezoid {[0%nat := ex_zero_flux]} 0%nat ex_zero_flux _
                (lookup_singleton_eq _ _) ex_zero_flux_q)
      as (σ' & ds' & Q & Hrun & Hσ' & HQ & Hlen & _ & _ & Hzero).
    exists σ', ds', Q. do 4 (split; [done|]). exact (Hzero ex_zero_flux_rows).
Defined.

(** ** The claim on get_q *)

Section GetQOutcome.

Variable quantile : list f64 → Dataset → Dataset.
Variable velocity_fill :
  grid → grid → grid → DataArray grid → f64 → f64 → list f64 → string → DataArray grid.
Variable depth_integrate :
  grid → DataArray grid → f64 → f64 → list f64 → f64 → string → DataArray grid.
Variables z_0 h_ref : f64.

(** C9, amended. get_q leaves the dataset of the accessor, and every other
    dataset there was, as it was, whether it returns or raises. When the
    dataset reduced to the quantiles has "v_eff_nofill", it returns a
    dataset object that was not in the store, the reduced dataset with
    "v_eff", "q_nofill" and "q" added; when it has not, it raises KeyError
    with that name. *)
Theorem get_q_leaves_original (σ : heap) (self : loc) (ds : Dataset) (v_corr : f64)
    (quantiles : list f64) :
  σ !! self = Some ds →
  let run := get_q quantile velocity_fill depth_integrate z_0 h_ref
                   self v_corr quantiles σ in
  run.2 !! self = Some ds ∧
  (∀ l : loc, is_Some (σ !! l) → run.2 !! l = σ !! l) ∧
  (∀ v : DataArray grid,
     data_vars (quantile quantiles ds) !! "v_eff_nofill" = Some v →
     ∃ new : loc,
       run.1 = inr new ∧ σ !! new = None ∧ new ≠ self ∧
       run.2 !! new = Some (q_dataset velocity_fill depth_integrate z_0 h_ref
                                      (quantile quantiles ds) v v_corr)) ∧
  (data_vars (quantile quantiles ds) !! "v_eff_nofill" = None →
   run.1 = inl (KeyError "v_eff_nofill")).
Proof.
  intros Hσ run. subst run. rewrite (get_q_run _ _ _ _ _ _ _ _ _ _ Hσ). simpl.
  pose proof (fresh_loc_unused σ) as Hnew.
  assert (∀ l : loc, is_Some (σ !! l) → fresh (dom σ) ≠ l) as Hne.
  { intros l [d Hl] <-. congruence. }
  split; [|split; [|split]].
  - destruct (data_vars _ !! "v_eff_nofill"); simpl;
      rewrite lookup_insert_ne by (apply Hne; eauto); done.
  - intros l Hl.
    destruct (data_vars _ !! "v_eff_nofill"); simpl;
      rewrite lookup_insert_ne by (by apply Hne); done.
  - intros v ->. exists (fresh (dom σ)). simpl.
    split; [done|]. split; [done|]. split; [apply Hne; eauto|].
    apply lookup_insert_eq.
  - by intros ->.
Qed.

End GetQOutcome.

Lemma ex_two_points_reduced :
  data_vars (ex_quantile [Fin (1 / 2)] ex_two_points) !! "v_eff_nofill" = None.
Proof.
  unfold ex_quantile, ex_two_points, ex_velocity. simpl.
  rewrite lookup_fmap, !lookup_insert_ne by done. by rewrite lookup_empty.
Qed.

(** C9 as stated fails: [ex_two_points] has the variables "v_x" and "v_y"
    over time and no "v_eff_nofill", and get_q on it raises. *)
Lemma get_q_raises_without_projection :
  (get_q ex_quantile ex_velocity_fill ex_depth_integrate (Fin 0) (Fin 0)
         0%nat (Fin 1) [Fin (1 / 2)] {[0%nat := ex_two_points]}).1 =
  inl (KeyError "v_eff_nofill").
Proof.
  rewrite (get_q_run _ _ _ _ _ {[0%nat := ex_two_points]} 0%nat ex_two_points _ _
             (lookup_singleton_eq _ _)).
  cbv zeta. by rewrite ex_two_points_reduced.
Qed.

(** At [ex_series] the call returns a new dataset; at [ex_two_points] it
    raises; in both the dataset of the accessor stays. *)
Lemma get_q_leaves_original_witness :
  (let run := get_q ex_quantile ex_velocity_fill ex_depth_integrate (Fin 0) (Fin 0)
                    0%nat (Fin 1) [Fin (1 / 2)] {[0%nat := ex_series]} in
   run.2 !! 0%nat = Some ex_series ∧
   ∃ new : loc,
     run.1 = inr new ∧ new ≠ 0%nat ∧
     run.2 !! new =
     Some (q_dataset ex_velocity_fill ex_depth_integrate (Fin 0) (Fin 0)
                     (ex_quantile [Fin (1 / 2)] ex_series)
                     (mkDataArray [[Fin 1; NaN]] []) (Fin 1))) ∧
  (let run := get_q ex_quantile ex_velocity_fill ex_depth_integrate (Fin 0) (Fin 0)
                    0%nat (Fin 1) [Fin (1 / 2)] {[0%nat := ex_two_points]} in
   run.2 !! 0%nat = Some ex_two_points ∧ run.1 = inl (KeyError "v_eff_nofill")).
Proof.
  split.
  - destruct (get_q_leaves_original ex_quantile ex_velocity_fill ex_depth_integrate
                (Fin 0) (Fin 0) {[0%nat := ex_series]} 0%nat ex_series (Fin 1)
                [Fin (1 / 2)] (lookup_singleton_eq _ _)) as (Hself & _ & Hret & _).
    split; [exact Hself|].
    destruct (Hret _ ex_series_reduced) as (new & Hnew & _ & Hne & Hd). eauto.
  - destruct (get_q_leaves_original ex_quantile ex_velocity_fill ex_depth_integrate
                (Fin 0) (Fin 0) {[0%nat := ex_two_points]} 0%nat ex_two_points (Fin 1)
                [Fin (1 / 2)] (lookup_singleton_eq _ _)) as (Hself & _ & _ & Hraise).
    split; [exact Hself | exact (Hraise ex_two_points_reduced)].
Defined.

(** * Further properties of the accessor *)

(** ** Errors of vector_to_scalar *)

(** X1. Whatever vector_to_scalar raises, it raises before it writes: the
    store after the call is the store before it. *)
Theorem vector_to_scalar_raises_unchanged (σ : heap) (self : loc) (angle_method : Z)
    (v_x v_y : string) (e : exn) :
  (vector_to_scalar self angle_method v_x v_y σ).1 = inl e →
  (vector_to_scalar self angle_method v_x v_y σ).2 = σ.
Proof.
  destruct (σ !! self) as [ds|] eqn:Hσ.
  - rewrite (vector_to_scalar_run _ _ _ _ _ _ Hσ).
    destruct (section_angle ds angle_method); [done|].
    destruct (data_vars ds !! v_x); [|done]. by destruct (data_vars ds !! v_y).
  - unfold vector_to_scalar, mbind, M_bind, obj. by rewrite Hσ.
Qed.

Lemma vector_to_scalar_raises_unchanged_witness :
  (vector_to_scalar 0 1 "v_x" "v_y" {[0%nat := ex_two_points]}).1 =
    inl (UnboundLocalError "angle_left") ∧
  (vector_to_scalar 0 1 "v_x" "v_y" {[0%nat := ex_two_points]}).2 =
    {[0%nat := ex_two_points]}.
Proof.
  assert ((vector_to_scalar 0 1 "v_x" "v_y" {[0%nat := ex_two_points]}).1 =
          inl (UnboundLocalError "angle_left")) as H.
  { rewrite (local_mode_raises _ _ ex_two_points);
      [done | apply lookup_singleton_eq | done | done | simpl; lia]. }
  split; [exact H|].
  exact (vector_to_scalar_raises_unchanged _ _ _ _ _ _ H).
Defined.

(** X2. In the global mode a dataset without a point of finite x makes the
    call raise IndexError, at [xs[0]]. *)
Theorem global_mode_no_finite_point (σ : heap) (self : loc) (ds : Dataset)
    (v_x v_y : string) :
  σ !! self = Some ds → finite_xs ds = [] →
  vector_to_scalar self 0 v_x v_y σ = (inl IndexError, σ).
Proof.
  intros Hσ Hxs. rewrite (vector_to_scalar_run _ _ _ _ _ _ Hσ).
  unfold section_angle. rewrite bool_decide_eq_true_2 by done.
  fold (finite_xs ds). by rewrite Hxs.
Qed.

Lemma global_mode_no_finite_point_witness :
  finite_xs ex_no_finite = [] ∧
  vector_to_scalar 0 0 "v_x" "v_y" {[0%nat := ex_no_finite]} =
    (inl IndexError, {[0%nat := ex_no_finite]}).
Proof.
  split; [reflexivity|].
  exact (global_mode_no_finite_point {[0%nat := ex_no_finite]} 0%nat ex_no_finite
           "v_x" "v_y" (lookup_singleton_eq _ _) eq_refl).
Defined.


(** ** The local mode without a point of finite x *)

Lemma mask_fmap_nil {A} (f : A → bool) (l : list A) :
  mask (f <$> l) l = [] → f <$> l = replicate (length l) false.
Proof.
  induction l as [|a l IH]; [done|]. simpl. destruct (f a); [done|].
  intros H. f_equal. by apply IH.
Qed.

Lemma mask_assign_no_true {A} (n : nat) (dst src : list A) :
  mask_assign (replicate n false) dst src = dst.
Proof.
  revert dst. induction n as [|n IH]; intros [|d dst]; simpl; try done.
  by rewrite IH.
Qed.

Lemma ones_times_nan (n : nat) :
  ones_times n (flow_direction (AArray (replicate n NaN))) = replicate n NaN.
Proof.
  apply list_eq. intros p. rewrite lookup_ones_times. simpl.
  rewrite list_lookup_fmap. case_decide as Hp.
  - by rewrite !lookup_replicate_2.
  - rewrite lookup_ge_None_2; [done|]. rewrite length_replicate. lia.
Qed.

Lemma cell_effective_velocity_inv (vx vy : grid) (flow_dir : angle_t) (t p : nat) (c : f64) :
  cell (effective_velocity vx vy flow_dir) t p = Some c →
  ∃ a b fd,
    cell vx t p = Some a ∧ cell vy t p = Some b ∧ angle_at flow_dir p = Some fd ∧
    c = fmul (fcos (fsub (arctan2 a b) fd)) (pow_half (fadd (square a) (square b))).
Proof.
  unfold effective_velocity.
  rewrite cell_grid_zip, !cell_grid_map, cell_grid_sub, !cell_grid_zip, !cell_grid_map.
  destruct (cell vx t p) as [a|]; [|done]. destruct (cell vy t p) as [b|]; [|done].
  simpl. destruct (angle_at flow_dir p) as [fd|]; [|done]. simpl.
  intros [= <-]. eauto 10.
Qed.

Lemma projection_nan_direction (a b : f64) :
  fmul (fcos (fsub (arctan2 a b) NaN)) (pow_half (fadd (square a) (square b))) = NaN.
Proof. unfold fsub. simpl fopp. by destruct (arctan2 a b). Qed.

(** X4. In the local mode (angle_method other than 0) the call raises
    UnboundLocalError as soon as one point has a finite x; it returns only
    for a dataset without such a point, and then every stored direction and
    every effective velocity is NaN. *)
Theorem local_mode_outcome (σ : heap) (self : loc) (ds : Dataset) (angle_method : Z)
    (v_x v_y : string) (vx vy : DataArray grid) :
  σ !! self = Some ds → angle_method ≠ 0%Z →
  length (coord_y ds) = length (coord_x ds) →
  data_vars ds !! v_x = Some vx → data_vars ds !! v_y = Some vy →
  ((0 < length (finite_xs ds))%nat →
   vector_to_scalar self angle_method v_x v_y σ =
   (inl (UnboundLocalError "angle_left"), σ)) ∧
  (finite_xs ds = [] →
   ∃ σ' ds' vd ve,
     vector_to_scalar self angle_method v_x v_y σ = (inr tt, σ') ∧
     σ' !! self = Some ds' ∧
     v_dir ds' = Some vd ∧ values vd = replicate (n_points ds) NaN ∧
     data_vars ds' !! "v_eff_nofill" = Some ve ∧
     ∀ (t p : nat) (c : f64), cell (values ve) t p = Some c → c = NaN).
Proof.
  intros Hσ Hm Hlen Hx Hy. split; [intros Hn; by apply (local_mode_raises _ _ ds)|].
  intros Hxs. eexists _, _, _, _.
  split; [by apply (local_mode_returns _ _ ds)|].
  split; [apply lookup_self_insert|]. split; [apply v_dir_with_projection|].
  assert (mask_assign (isfinite <$> coord_x ds) (replicate (length (coord_x ds)) NaN)
            (replicate (length (finite_ys ds)) (Fin 0)) =
          replicate (length (coord_x ds)) NaN) as ->.
  { rewrite (mask_fmap_nil _ _ Hxs). apply mask_assign_no_true. }
  split; [by apply ones_times_nan|]. split; [apply v_eff_with_projection|].
  simpl. intros t p c (a & b & fd & _ & _ & Hfd & ->)%cell_effective_velocity_inv.
  simpl in Hfd. rewrite list_lookup_fmap in Hfd.
  destruct (replicate _ NaN !! p) as [d|] eqn:Hd; [|done].
  apply lookup_replicate in Hd as [-> _]. simpl in Hfd. simplify_eq.
  apply projection_nan_direction.
Qed.

Lemma local_mode_outcome_witness :
  ((0 < length (finite_xs ex_no_finite))%nat →
   vector_to_scalar 0 1 "v_x" "v_y" {[0%nat := ex_no_finite]} =
   (inl (UnboundLocalError "angle_left"), {[0%nat := ex_no_finite]})) ∧
  (finite_xs ex_no_finite = [] →
   ∃ σ' ds' vd ve,
     vector_to_scalar 0 1 "v_x" "v_y" {[0%nat := ex_no_finite]} = (inr tt, σ') ∧
     σ' !! 0%nat = Some ds' ∧
     v_dir ds' = Some vd ∧ values vd = replicate (n_points ex_no_finite) NaN ∧
     data_vars ds' !! "v_eff_nofill" = Some ve ∧
     ∀ (t p : nat) (c : f64), cell (values ve) t p = Some c → c = NaN).
Proof.
  refine (local_mode_outcome {[0%nat := ex_no_finite]} 0%nat ex_no_finite 1 "v_x" "v_y"
            _ _ (lookup_singleton_eq _ _) _ eq_refl (ex_velocity_v_x _ _)
            (ex_velocity_v_y _ _)).
  done.
Defined.

(** ** What vector_to_scalar writes *)

(** X5. A call of vector_to_scalar that returns has written "v_eff_nofill"
    and "v_dir", with their attributes, and nothing else: every other
    variable, every coordinate, "river_flow" and every other dataset of the
    store are as before. *)
Theorem vector_to_scalar_frame (σ σ' : heap) (self : loc) (ds : Dataset)
    (angle_method : Z) (v_x v_y : string) :
  σ !! self = Some ds →
  vector_to_scalar self angle_method v_x v_y σ = (inr tt, σ') →
  ∃ ds' ve vd,
    σ' !! self = Some ds' ∧
    data_vars ds' !! "v_eff_nofill" = Some ve ∧ attrs ve = v_eff_attrs ∧
    v_dir ds' = Some vd ∧ attrs vd = v_dir_attrs ∧
    (∀ k : string, k ≠ "v_eff_nofill" → data_vars ds' !! k = data_vars ds !! k) ∧
    river_flow ds' = river_flow ds ∧
    coord_x ds' = coord_x ds ∧ coord_y ds' = coord_y ds ∧ scoords ds' = scoords ds ∧
    xcoords ds' = xcoords ds ∧ ycoords ds' = ycoords ds ∧ zcoords ds' = zcoords ds ∧
    h_a ds' = h_a ds ∧
    ∀ l : loc, l ≠ self → σ' !! l = σ !! l.
Proof.
  intros Hσ Hrun.
  destruct (vector_to_scalar_returns _ _ _ _ _ _ _ Hσ Hrun)
    as (angle_da & vx & vy & Hs & Hx & Hy & ->).
  eexists _, _, _. split; [apply lookup_self_insert|].
  split; [apply v_eff_with_projection|]. split; [done|].
  split; [apply v_dir_with_projection|]. split; [done|].
  split. { intros k Hk. simpl. by rewrite lookup_insert_ne. }
  repeat (split; [done|]). intros l Hl. by rewrite lookup_insert_ne.
Qed.

Lemma vector_to_scalar_frame_witness :
  ∃ ds' ve vd,
    (<[0%nat := ex_two_points_projected]> {[0%nat := ex_two_points]} : heap) !! 0%nat
      = Some ds' ∧
    data_vars ds' !! "v_eff_nofill" = Some ve ∧ attrs ve = v_eff_attrs ∧
    v_dir ds' = Some vd ∧ attrs vd = v_dir_attrs ∧
    (∀ k : string, k ≠ "v_eff_nofill" →
                   data_vars ds' !! k = data_vars ex_two_points !! k) ∧
    river_flow ds' = river_flow ex_two_points ∧
    coord_x ds' = coord_x ex_two_points ∧ coord_y ds' = coord_y ex_two_points ∧
    scoords ds' = scoords ex_two_points ∧
    xcoords ds' = xcoords ex_two_points ∧ ycoords ds' = ycoords ex_two_points ∧
    zcoords ds' = zcoords ex_two_points ∧ h_a ds' = h_a ex_two_points ∧
    ∀ l : loc, l ≠ 0%nat →
      (<[0%nat := ex_two_points_projected]> {[0%nat := ex_two_points]} : heap) !! l =
      ({[0%nat := ex_two_points]} : heap) !! l.
Proof.
  exact (vector_to_scalar_frame {[0%nat := ex_two_points]} _ 0%nat ex_two_points 0
           "v_x" "v_y" (lookup_singleton_eq _ _) ex_two_points_run).
Defined.

(** X6. After a call that returns, "v_eff_nofill" has a value in a cell of
    a point of the dataset exactly when "v_x" and "v_y" both have one: the
    output has the cells the two inputs share, no more and no fewer. *)
Theorem effective_velocity_cells (σ σ' : heap) (self : loc) (ds : Dataset)
    (angle_method : Z) (v_x v_y : string) (vx vy : DataArray grid) (t p : nat) :
  σ !! self = Some ds →
  data_vars ds !! v_x = Some vx → data_vars ds !! v_y = Some vy →
  vector_to_scalar self angle_method v_x v_y σ = (inr tt, σ') →
  (p < n_points ds)%nat →
  ∃ ds' ve,
    σ' !! self = Some ds' ∧ data_vars ds' !! "v_eff_nofill" = Some ve ∧
    (is_Some (cell (values ve) t p) ↔
     is_Some (cell (values vx) t p) ∧ is_Some (cell (values vy) t p)).
Proof.
  intros Hσ Hx Hy Hrun Hp.
  destruct (vector_to_scalar_returns _ _ _ _ _ _ _ Hσ Hrun)
    as (angle_da & vx' & vy' & Hs & Hx' & Hy' & ->).
  simplify_eq. eexists _, _. split; [apply lookup_self_insert|].
  split; [apply v_eff_with_projection|]. simpl.
  destruct (flow_direction_at _ _ _ _ Hs Hp) as [fd Hfd]. split.
  - intros [c (a & b & ? & Ha & Hb & _)%cell_effective_velocity_inv]. eauto.
  - intros [[a Ha] [b Hb]]. rewrite (cell_effective_velocity _ _ _ _ _ _ _ _ Ha Hb Hfd).
    eauto.
Qed.

Lemma effective_velocity_cells_witness :
  ∃ ds' ve,
    (<[0%nat := ex_two_points_projected]> {[0%nat := ex_two_points]} : heap) !! 0%nat
      = Some ds' ∧
    data_vars ds' !! "v_eff_nofill" = Some ve ∧
    (is_Some (cell (values ve) 0 1) ↔
     is_Some (cell [[Fin 1; NaN]] 0 1) ∧ is_Some (cell [[Fin 1; Fin 1]] 0 1)).
Proof.
  refine (effective_velocity_cells {[0%nat := ex_two_points]} _ 0%nat ex_two_points 0
            "v_x" "v_y" _ _ 0%nat 1%nat (lookup_singleton_eq _ _)
            (ex_velocity_v_x _ _) (ex_velocity_v_y _ _) ex_two_points_run _).
  unfold n_points. simpl. lia.
Defined.

(** ** The geometry of the projection *)

Lemma hyp_pos (x y : R) : 0 < x → sqrt (x * x + y * y) = x * sqrt (1 + (y / x)²).
Proof.
  intros Hx.
  replace (x * x + y * y) with ((x * x) * (1 + (y / x)²)) by (unfold Rsqr; field; lra).
  rewrite sqrt_mult_alt by nra. by rewrite sqrt_square by lra.
Qed.

Lemma hyp_root_pos (t : R) : 0 < sqrt (1 + t²).
Proof. apply sqrt_lt_R0. pose proof (Rle_0_sqr t). lra. Qed.

Lemma atan_polar_pos (x y : R) :
  0 < x →
  sqrt (x * x + y * y) * cos (atan (y / x)) = x ∧
  sqrt (x * x + y * y) * sin (atan (y / x)) = y.
Proof.
  intros Hx. rewrite hyp_pos, cos_atan, sin_atan by done.
  pose proof (hyp_root_pos (y / x)). split; field; lra.
Qed.

Lemma atan_polar_neg (x y : R) :
  x < 0 →
  sqrt (x * x + y * y) * cos (atan (y / x)) = - x ∧
  sqrt (x * x + y * y) * sin (atan (y / x)) = - y.
Proof.
  intros Hx. destruct (atan_polar_pos (- x) (- y)) as [Hc Hs]; [lra|].
  replace (- x * - x + - y * - y) with (x * x + y * y) in * by lra.
  replace (- y / - x) with (y / x) in * by (field; lra). done.
Qed.

Lemma Ratan2_polar (y x : R) :
  sqrt (x * x + y * y) * cos (Ratan2 y x) = x ∧
  sqrt (x * x + y * y) * sin (Ratan2 y x) = y.
Proof.
  unfold Ratan2. destruct (Rlt_dec 0 x) as [Hx|Hx]; [by apply atan_polar_pos|].
  destruct (Rlt_dec x 0) as [Hx'|Hx'].
  - destruct (atan_polar_neg x y Hx') as [Hc Hs].
    destruct (Rlt_dec y 0).
    + replace (atan (y / x) - PI) with (atan (y / x) + PI - 2 * PI) by lra.
      unfold Rminus. rewrite <- (cos_period _ 1), <- (sin_period _ 1). simpl INR.
      replace (atan (y / x) + PI + - (2 * PI) + 2 * 1 * PI) with (atan (y / x) + PI) by lra.
      rewrite neg_cos, neg_sin. split; nra.
    + rewrite neg_cos, neg_sin. split; nra.
  - assert (x = 0) as -> by lra.
    replace (0 * 0 + y * y) with (y * y) by lra.
    destruct (Rlt_dec 0 y).
    + rewrite cos_PI2, sin_PI2, sqrt_square by lra. split; lra.
    + destruct (Rlt_dec y 0).
      * rewrite cos_neg, sin_neg, cos_PI2, sin_PI2.
        replace (y * y) with (- y * - y) by ring. rewrite sqrt_square by lra. split; lra.
      * assert (y = 0) as -> by lra.
        replace (0 * 0) with 0 by lra. rewrite sqrt_0, cos_0, sin_0. split; lra.
Qed.

Lemma Rneg_sum_squares (a b : R) : Rneg (a * a + b * b) = false.
Proof. unfold Rneg. destruct (Rlt_dec _ 0); [nra | done]. Qed.

(** The effective velocity of a finite velocity [(a, b)] for a finite
    direction [fd]. *)
Lemma projection_finite (a b fd : R) :
  fmul (fcos (fsub (arctan2 (Fin a) (Fin b)) (Fin fd)))
       (pow_half (fadd (square (Fin a)) (square (Fin b)))) =
  Fin (cos (Ratan2 a b - fd) * sqrt (a * a + b * b)).
Proof. simpl. by rewrite Rneg_sum_squares. Qed.

(** The projection onto the normal of the direction [(dx, dy)], scaled by
    the length of that direction, is the cross product with the velocity. *)
Lemma projection_cross (dx dy a b : R) :
  sqrt (dx * dx + dy * dy) *
    (cos (Ratan2 a b - (Ratan2 dx dy - PI / 2)) * sqrt (a * a + b * b)) =
  dx * b - dy * a.
Proof.
  replace (Ratan2 a b - (Ratan2 dx dy - PI / 2))
    with (PI / 2 - (Ratan2 dx dy - Ratan2 a b)) by lra.
  rewrite cos_shift, sin_minus.
  destruct (Ratan2_polar dx dy) as [Hc Hs]. destruct (Ratan2_polar a b) as [Hc' Hs'].
  replace (dy * dy + dx * dx) with (dx * dx + dy * dy) in * by lra.
  replace (b * b + a * a) with (a * a + b * b) in * by lra.
  nra.
Qed.

Lemma Ratan2_0_0 : Ratan2 0 0 = 0.
Proof.
  unfold Ratan2. destruct (Rlt_dec 0 0); [lra|]. by destruct (Rlt_dec 0 0).
Qed.

(** With no direction of the section, what is left is minus the x-component. *)
Lemma projection_degenerate (a b : R) :
  cos (Ratan2 a b - (Ratan2 0 0 - PI / 2)) * sqrt (a * a + b * b) = - a.
Proof.
  rewrite Ratan2_0_0.
  replace (Ratan2 a b - (0 - PI / 2)) with (PI / 2 - - Ratan2 a b) by lra.
  rewrite cos_shift, sin_neg. destruct (Ratan2_polar a b) as [_ Hs].
  replace (b * b + a * a) with (a * a + b * b) in * by lra. lra.
Qed.

Lemma global_flow_direction (xf xl yf yl : R) :
  fsub (arctan2 (fsub (Fin xl) (Fin xf)) (fsub (Fin yl) (Fin yf))) half_pi =
  Fin (Ratan2 (xl - xf) (yl - yf) - PI / 2).
Proof. rewrite half_pi_eq. reflexivity. Qed.

(** X7. In the global mode, for a section whose first and last point of
    finite x are (xf, yf) and (xl, yl), the effective velocity e of a finite
    velocity (a, b) is its component across the section: the length of the
    section vector times e is the cross product (xl - xf) * b - (yl - yf) * a. *)
Theorem effective_velocity_across_section (σ : heap) (self : loc) (ds : Dataset)
    (v_x v_y : string) (vx vy : DataArray grid) (xf xl yf yl : R)
    (t p : nat) (a b : R) :
  σ !! self = Some ds →
  data_vars ds !! v_x = Some vx → data_vars ds !! v_y = Some vy →
  head (finite_xs ds) = Some (Fin xf) → last (finite_xs ds) = Some (Fin xl) →
  head (finite_ys ds) = Some (Fin yf) → last (finite_ys ds) = Some (Fin yl) →
  cell (values vx) t p = Some (Fin a) → cell (values vy) t p = Some (Fin b) →
  ∃ σ' ds' ve e,
    vector_to_scalar self 0 v_x v_y σ = (inr tt, σ') ∧
    σ' !! self = Some ds' ∧ data_vars ds' !! "v_eff_nofill" = Some ve ∧
    cell (values ve) t p = Some (Fin e) ∧
    sqrt ((xl - xf) * (xl - xf) + (yl - yf) * (yl - yf)) * e =
      (xl - xf) * b - (yl - yf) * a.
Proof.
  intros Hσ Hx Hy Hxf Hxl Hyf Hyl Ha Hb. eexists _, _, _, _.
  split; [by apply (global_mode_returns _ _ ds)|].
  split; [apply lookup_self_insert|]. split; [apply v_eff_with_projection|].
  cbn [values]. split.
  - set (angle := arctan2 (fsub (Fin xl) (Fin xf)) (fsub (Fin yl) (Fin yf))).
    rewrite (cell_effective_velocity _ _ (flow_direction (AScalar angle)) _ _ _ _
               (fsub angle half_pi) Ha Hb eq_refl).
    subst angle. by rewrite global_flow_direction, projection_finite.
  - apply projection_cross.
Qed.

Lemma effective_velocity_across_section_witness :
  cell [[Fin 1; NaN]] 0 0 = Some (Fin 1) ∧ cell [[Fin 1; Fin 1]] 0 0 = Some (Fin 1) ∧
  ∃ σ' ds' ve e,
    vector_to_scalar 0 0 "v_x" "v_y" {[0%nat := ex_two_points]} = (inr tt, σ') ∧
    σ' !! 0%nat = Some ds' ∧ data_vars ds' !! "v_eff_nofill" = Some ve ∧
    cell (values ve) 0 0 = Some (Fin e) ∧
    sqrt ((1 - 0) * (1 - 0) + (0 - 0) * (0 - 0)) * e = (1 - 0) * 1 - (0 - 0) * 1.
Proof.
  split; [reflexivity|]. split; [reflexivity|].
  exact (effective_velocity_across_section {[0%nat := ex_two_points]} 0%nat ex_two_points
           "v_x" "v_y" _ _ 0 1 0 0 0%nat 0%nat 1 1 (lookup_singleton_eq _ _)
           (ex_velocity_v_x _ _) (ex_velocity_v_y _ _) eq_refl eq_refl eq_refl eq_refl
           eq_refl eq_refl).
Defined.

Lemma fmul_finite_inv (x y : f64) (r : R) :
  fmul x y = Fin r → ∃ rx ry, x = Fin rx ∧ y = Fin ry.
Proof.
  destruct x as [|sx|rx], y as [|sy|ry]; simpl; try done.
  - by destruct (Rzero ry).
  - by destruct (Rzero rx).
  - eauto.
Qed.

Lemma fadd_finite_inv (x y : f64) (r : R) :
  fadd x y = Fin r → ∃ rx ry, x = Fin rx ∧ y = Fin ry.
Proof.
  destruct x as [|sx|rx], y as [|sy|ry]; simpl; try done.
  - by destruct (Bool.eqb sx sy).
  - eauto.
Qed.

Lemma pow_half_finite_inv (x : f64) (r : R) : pow_half x = Fin r → ∃ rx, x = Fin rx.
Proof. destruct x; simpl; try done. eauto. Qed.

Lemma fcos_finite_inv (x : f64) (r : R) : fcos x = Fin r → ∃ rx, x = Fin rx.
Proof. destruct x; simpl; try done. eauto. Qed.

(** A finite projection has a finite velocity and a finite direction. *)
Lemma projection_finite_inv (a b fd : f64) (e : R) :
  fmul (fcos (fsub (arctan2 a b) fd)) (pow_half (fadd (square a) (square b))) = Fin e →
  ∃ ra rb rf, a = Fin ra ∧ b = Fin rb ∧ fd = Fin rf.
Proof.
  intros (c & m & Hc & Hm)%fmul_finite_inv.
  apply pow_half_finite_inv in Hm as (? & (? & ? & (ra & ? & -> & _)%fmul_finite_inv
    & (rb & ? & -> & _)%fmul_finite_inv)%fadd_finite_inv).
  apply fcos_finite_inv in Hc as (? & (? & ? & _ & Hfd)%fadd_finite_inv).
  destruct fd as [| |rf]; simpl in Hfd; try done. eauto 10.
Qed.

(** X8. A finite effective velocity comes from a finite velocity vector and
    is, in absolute value, at most the magnitude of that vector. *)
Theorem effective_velocity_bound (σ σ' : heap) (self : loc) (ds : Dataset)
    (angle_method : Z) (v_x v_y : string) (vx vy : DataArray grid) :
  σ !! self = Some ds →
  data_vars ds !! v_x = Some vx → data_vars ds !! v_y = Some vy →
  vector_to_scalar self angle_method v_x v_y σ = (inr tt, σ') →
  ∃ ds' ve,
    σ' !! self = Some ds' ∧ data_vars ds' !! "v_eff_nofill" = Some ve ∧
    ∀ (t p : nat) (e : R),
      cell (values ve) t p = Some (Fin e) →
      ∃ a b : R,
        cell (values vx) t p = Some (Fin a) ∧ cell (values vy) t p = Some (Fin b) ∧
        Rabs e <= sqrt (a * a + b * b).
Proof.
  intros Hσ Hx Hy Hrun.
  destruct (vector_to_scalar_returns _ _ _ _ _ _ _ Hσ Hrun)
    as (angle_da & vx' & vy' & Hs & Hx' & Hy' & ->).
  simplify_eq. eexists _, _. split; [apply lookup_self_insert|].
  split; [apply v_eff_with_projection|]. simpl.
  intros t p e (a & b & fd & Ha & Hb & _ & He)%cell_effective_velocity_inv.
  destruct (projection_finite_inv _ _ _ _ (eq_sym He)) as (ra & rb & rf & -> & -> & ->).
  exists ra, rb. split; [done|]. split; [done|].
  rewrite projection_finite in He. simplify_eq.
  rewrite Rabs_mult, (Rabs_pos_eq (sqrt _)) by apply sqrt_pos.
  pose proof (COS_bound (Ratan2 ra rb - rf)) as Hcos.
  pose proof (sqrt_pos (ra * ra + rb * rb)).
  assert (Rabs (cos (Ratan2 ra rb - rf)) <= 1) by (apply Rabs_le; lra). nra.
Qed.

Lemma effective_velocity_bound_witness :
  ∃ ds' ve,
    (<[0%nat := ex_two_points_projected]> {[0%nat := ex_two_points]} : heap) !! 0%nat
      = Some ds' ∧
    data_vars ds' !! "v_eff_nofill" = Some ve ∧
    ∀ (t p : nat) (e : R),
      cell (values ve) t p = Some (Fin e) →
      ∃ a b : R,
        cell [[Fin 1; NaN]] t p = Some (Fin a) ∧ cell [[Fin 1; Fin 1]] t p = Some (Fin b) ∧
        Rabs e <= sqrt (a * a + b * b).
Proof.
  exact (effective_velocity_bound {[0%nat := ex_two_points]} _ 0%nat ex_two_points 0
           "v_x" "v_y" _ _ (lookup_singleton_eq _ _) (ex_velocity_v_x _ _)
           (ex_velocity_v_y _ _) ex_two_points_run).
Defined.

(** X9. In the global mode, when the first and the last point of finite x
    are the same point (a single point inside the area of interest, or a
    closed section), the call does not fail: the angle of the section is 0,
    every point gets the direction -π/2, and the effective velocity of a
    finite velocity (a, b) is -a. *)
Theorem global_mode_degenerate_section (σ : heap) (self : loc) (ds : Dataset)
    (v_x v_y : string) (vx vy : DataArray grid) (x0 y0 : R) :
  σ !! self = Some ds →
  data_vars ds !! v_x = Some vx → data_vars ds !! v_y = Some vy →
  head (finite_xs ds) = Some (Fin x0) → last (finite_xs ds) = Some (Fin x0) →
  head (finite_ys ds) = Some (Fin y0) → last (finite_ys ds) = Some (Fin y0) →
  ∃ σ' ds' vd ve,
    vector_to_scalar self 0 v_x v_y σ = (inr tt, σ') ∧
    σ' !! self = Some ds' ∧
    v_dir ds' = Some vd ∧ values vd = replicate (n_points ds) (Fin (- (PI / 2))) ∧
    data_vars ds' !! "v_eff_nofill" = Some ve ∧
    ∀ (t p : nat) (a b : R),
      cell (values vx) t p = Some (Fin a) → cell (values vy) t p = Some (Fin b) →
      cell (values ve) t p = Some (Fin (- a)).
Proof.
  intros Hσ Hx Hy Hxf Hxl Hyf Hyl. eexists _, _, _, _.
  split; [by apply (global_mode_returns _ _ ds)|].
  split; [apply lookup_self_insert|]. split; [apply v_dir_with_projection|].
  assert (Ratan2 (x0 - x0) (y0 - y0) - PI / 2 = - (PI / 2)) as Hdir.
  { replace (x0 - x0) with 0 by lra. replace (y0 - y0) with 0 by lra.
    rewrite Ratan2_0_0. lra. }
  split.
  { cbn [values]. unfold flow_direction, angle_map, ones_times.
    by rewrite fmap_replicate, fmul_1_l, global_flow_direction, Hdir. }
  split; [apply v_eff_with_projection|]. cbn [values]. intros t p a b Ha Hb.
  set (angle := arctan2 (fsub (Fin x0) (Fin x0)) (fsub (Fin y0) (Fin y0))).
  rewrite (cell_effective_velocity _ _ (flow_direction (AScalar angle)) _ _ _ _
             (fsub angle half_pi) Ha Hb eq_refl).
  subst angle. rewrite global_flow_direction, projection_finite. do 2 f_equal.
  replace (x0 - x0) with 0 by lra. replace (y0 - y0) with 0 by lra.
  apply projection_degenerate.
Qed.

Lemma global_mode_degenerate_section_witness :
  finite_xs ex_one_point = [Fin 3] ∧ finite_ys ex_one_point = [Fin 4] ∧
  ∃ σ' ds' vd ve,
    vector_to_scalar 0 0 "v_x" "v_y" {[0%nat := ex_one_point]} = (inr tt, σ') ∧
    σ' !! 0%nat = Some ds' ∧
    v_dir ds' = Some vd ∧
    values vd = replicate (n_points ex_one_point) (Fin (- (PI / 2))) ∧
    data_vars ds' !! "v_eff_nofill" = Some ve ∧
    ∀ (t p : nat) (a b : R),
      cell [[Fin 1; Fin 1; Fin 1]] t p = Some (Fin a) →
      cell [[Fin 2; Fin 2; Fin 2]] t p = Some (Fin b) →
      cell (values ve) t p = Some (Fin (- a)).
Proof.
  split; [reflexivity|]. split; [reflexivity|].
  exact (global_mode_degenerate_section {[0%nat := ex_one_point]} 0%nat ex_one_point
           "v_x" "v_y" _ _ 3 4 (lookup_singleton_eq _ _) (ex_velocity_v_x _ _)
           (ex_velocity_v_y _ _) eq_refl eq_refl eq_refl eq_refl).
Defined.

(** ** Calls in sequence *)

Lemma with_projection_twice (ds : Dataset) (fd : angle_t) (vx vy : DataArray grid) :
  with_projection (with_projection ds fd vx vy) fd vx vy = with_projection ds fd vx vy.
Proof.
  unfold with_projection, set_v_dir_attrs, set_v_dir, set_data_var, n_points. simpl.
  by rewrite insert_insert_eq.
Qed.

(** X11. vector_to_scalar does not create "q": on a dataset without "q",
    get_river_flow called after a vector_to_scalar that returned raises the
    ValueError that asks for get_q, and leaves the projection in place. *)
Theorem river_flow_needs_get_q (σ σ' : heap) (self : loc) (ds : Dataset)
    (angle_method : Z) (v_x v_y : string) :
  σ !! self = Some ds → data_vars ds !! "q" = None →
  vector_to_scalar self angle_method v_x v_y σ = (inr tt, σ') →
  get_river_flow self σ' = (inl (ValueError q_missing), σ').
Proof.
  intros Hσ Hq Hrun.
  destruct (vector_to_scalar_returns _ _ _ _ _ _ _ Hσ Hrun)
    as (angle_da & vx & vy & Hs & Hx & Hy & ->).
  rewrite (get_river_flow_run _ _ _ (lookup_self_insert _ _ _)).
  assert (data_vars (with_projection ds (flow_direction angle_da) vx vy) !! "q" = None)
    as ->; [|done].
  simpl. by rewrite lookup_insert_ne.
Qed.

Lemma ex_two_points_no_q : data_vars ex_two_points !! "q" = None.
Proof.
  unfold ex_two_points, ex_velocity. simpl.
  rewrite !lookup_insert_ne by done. apply lookup_empty.
Qed.

Lemma river_flow_needs_get_q_witness :
  get_river_flow 0 (<[0%nat := ex_two_points_projected]> {[0%nat := ex_two_points]}) =
  (inl (ValueError q_missing),
   <[0%nat := ex_two_points_projected]> {[0%nat := ex_two_points]}).
Proof.
  exact (river_flow_needs_get_q {[0%nat := ex_two_points]} _ 0%nat ex_two_points 0
           "v_x" "v_y" (lookup_singleton_eq _ _) ex_two_points_no_q ex_two_points_run).
Defined.

(** ** get_river_flow *)

(** X12. get_river_flow is idempotent: whatever a call yields, the same
    call on the store it left yields the same and leaves that store as it is. *)
Theorem get_river_flow_idempotent (σ σ' : heap) (self : loc) (r : exn + unit) :
  get_river_flow self σ = (r, σ') → get_river_flow self σ' = (r, σ').
Proof.
  destruct (σ !! self) as [ds|] eqn:Hσ.
  - rewrite (get_river_flow_run _ _ _ Hσ).
    destruct (data_vars ds !! "q") as [q|] eqn:Hq.
    + intros [= <- <-].
      rewrite (get_river_flow_run _ _ _ (lookup_self_insert _ _ _)).
      change (data_vars (with_river_flow ds q)) with (data_vars ds). rewrite Hq.
      by rewrite insert_insert_eq.
    + intros [= <- <-]. by rewrite (get_river_flow_run _ _ _ Hσ), Hq.
  - unfold get_river_flow, mbind, M_bind, obj. rewrite Hσ. intros [= <- <-].
    by rewrite Hσ.
Qed.

Lemma get_river_flow_idempotent_witness :
  get_river_flow 0 (<[0%nat := with_river_flow ex_flux
                        (mkDataArray [[Fin 2; Fin 2; Fin 2]; [Fin 2; NaN; Fin 2]] [])]>
                      {[0%nat := ex_flux]}) =
  (inr tt, <[0%nat := with_river_flow ex_flux
               (mkDataArray [[Fin 2; Fin 2; Fin 2]; [Fin 2; NaN; Fin 2]] [])]>
             {[0%nat := ex_flux]}).
Proof.
  refine (get_river_flow_idempotent {[0%nat := ex_flux]} _ 0%nat (inr tt) _).
  by rewrite (get_river_flow_run _ _ ex_flux (lookup_singleton_eq _ _)), ex_flux_q.
Defined.

(** ** The width integral *)

Lemma trapz_nil_x (y : list f64) : trapz y [] = Fin 0.
Proof. reflexivity. Qed.

(** X14. With fewer than two stations along the section there is no width
    to integrate over: every value of "river_flow" is 0.0, whatever q holds. *)
Theorem river_flow_short_section (σ : heap) (self : loc) (ds : Dataset) (q : DataArray grid) :
  σ !! self = Some ds → data_vars ds !! "q" = Some q →
  (length (scoords ds) ≤ 1)%nat →
  ∃ σ' ds' Q,
    get_river_flow self σ = (inr tt, σ') ∧ σ' !! self = Some ds' ∧
    river_flow ds' = Some Q ∧ values Q = replicate (length (values q)) (Fin 0).
Proof.
  intros Hσ Hq Hs. eexists _, _, _.
  split. { rewrite (get_river_flow_run _ _ _ Hσ), Hq. done. }
  split; [apply lookup_self_insert|]. split; [apply river_flow_with_river_flow|].
  cbn [values]. unfold integrate_width.
  assert (∀ row : list f64,
            trapz (fillna (Fin 0) <$> row) (Fin <$> scoords ds) = Fin 0) as Hz.
  { intros row. destruct (scoords ds) as [|s0 [|s1 s]]; simpl in Hs; [done | | lia].
    apply (trapz_short_x _ (Fin s0)). }
  induction (values q) as [|row rows IH]; [done|]. by rewrite fmap_cons, Hz, IH.
Qed.

Lemma ex_station_q :
  data_vars ex_station !! "q" = Some (mkDataArray [[Fin 2]; [Inf false]] []).
Proof. apply lookup_insert_eq. Qed.

Lemma river_flow_short_section_witness :
  ∃ σ' ds' Q,
    get_river_flow 0 {[0%nat := ex_station]} = (inr tt, σ') ∧ σ' !! 0%nat = Some ds' ∧
    river_flow ds' = Some Q ∧ values Q = replicate 2 (Fin 0).
Proof.
  refine (river_flow_short_section {[0%nat := ex_station]} 0%nat ex_station _
            (lookup_singleton_eq _ _) ex_station_q _).
  simpl. lia.
Defined.

Lemma Rtrapezoid_constant (s : list R) (c s0 s1 : R) :
  head s = Some s0 → last s = Some s1 →
  Rtrapezoid s (replicate (length s) c) = c * (s1 - s0).
Proof.
  revert s0. induction s as [|a s IH]; intros s0 Hh Hl; [done|].
  simpl in Hh. simplify_eq. destruct s as [|b s].
  - simpl in *. simplify_eq. lra.
  - change (Rtrapezoid (s0 :: b :: s) (replicate (length (s0 :: b :: s)) c))
      with ((b - s0) * (c + c) / 2 + Rtrapezoid (b :: s) (replicate (length (b :: s)) c)).
    rewrite (IH b) by done. lra.
Qed.

(** X15. Where q is the same finite value c at every point of a quantile,
    the discharge of that quantile is c times the distance between the
    first and the last station. *)
Theorem river_flow_constant (σ : heap) (self : loc) (ds : Dataset) (q : DataArray grid)
    (k : nat) (c s0 s1 : R) :
  σ !! self = Some ds → data_vars ds !! "q" = Some q →
  values q !! k = Some (replicate (length (scoords ds)) (Fin c)) →
  head (scoords ds) = Some s0 → last (scoords ds) = Some s1 →
  ∃ σ' ds' Q,
    get_river_flow self σ = (inr tt, σ') ∧ σ' !! self = Some ds' ∧
    river_flow ds' = Some Q ∧ values Q !! k = Some (Fin (c * (s1 - s0))).
Proof.
  intros Hσ Hq Hk Hh Hl. eexists _, _, _.
  split. { rewrite (get_river_flow_run _ _ _ Hσ), Hq. done. }
  split; [apply lookup_self_insert|]. split; [apply river_flow_with_river_flow|].
  cbn [values]. unfold integrate_width. rewrite list_lookup_fmap, Hk. simpl.
  rewrite fmap_replicate. change (fillna (Fin 0) (Fin c)) with (Fin c).
  rewrite <- fmap_replicate, trapz_finite, (Rtrapezoid_constant _ _ _ _ Hh Hl). done.
Qed.

Lemma river_flow_constant_witness :
  ∃ σ' ds' Q,
    get_river_flow 0 {[0%nat := ex_flux]} = (inr tt, σ') ∧ σ' !! 0%nat = Some ds' ∧
    river_flow ds' = Some Q ∧ values Q !! 0%nat = Some (Fin (2 * (2 - 0))).
Proof.
  exact (river_flow_constant {[0%nat := ex_flux]} 0%nat ex_flux _ 0%nat 2 0 2
           (lookup_singleton_eq _ _) ex_flux_q eq_refl eq_refl eq_refl).
Defined.

Lemma ex_flux_stations (i : nat) (a b : R) :
  scoords ex_flux !! i = Some a → scoords ex_flux !! S i = Some b → a <= b.
Proof.
  destruct i as [|[|[|i]]]; simpl; intros; simplify_eq; lra.
Qed.

(** ** get_q and what follows it *)

Section GetQPipeline.

Variable quantile : list f64 → Dataset → Dataset.
Variable velocity_fill :
  grid → grid → grid → DataArray grid → f64 → f64 → list f64 → string → DataArray grid.
Variable depth_integrate :
  grid → DataArray grid → f64 → f64 → list f64 → f64 → string → DataArray grid.
Variables z_0 h_ref : f64.

(** X18. get_q followed by get_river_flow on the dataset it returned: both
    return, "river_flow" of the new dataset is the width integral of the
    depth-integrated filled velocity (of "q", not of "q_nofill"), and the
    dataset of the accessor is still as it was. *)
Theorem discharge_of_quantiles (σ : heap) (self : loc) (ds : Dataset) (v_corr : f64)
    (quantiles : list f64) (v : DataArray grid) :
  σ !! self = Some ds →
  data_vars (quantile quantiles ds) !! "v_eff_nofill" = Some v →
  let d := quantile quantiles ds in
  let v_eff :=
    velocity_fill (xcoords d) (ycoords d) (zcoords d) v z_0 h_ref (h_a d) "quantile" in
  let q := depth_integrate (zcoords d) v_eff z_0 h_ref (h_a d) v_corr "q" in
  ∃ new σ1 σ2 d2 Q,
    get_q quantile velocity_fill depth_integrate z_0 h_ref self v_corr quantiles σ =
      (inr new, σ1) ∧
    get_river_flow new σ1 = (inr tt, σ2) ∧
    σ2 !! self = Some ds ∧ σ2 !! new = Some d2 ∧
    river_flow d2 = Some Q ∧ values Q = integrate_width (values q) (scoords d).
Proof.
  intros Hσ Hv d v_eff q. subst d v_eff q. eexists _, _, _, _, _.
  split. { rewrite (get_q_run _ _ _ _ _ _ _ _ _ _ Hσ). simpl. by rewrite Hv. }
  split.
  { rewrite (get_river_flow_run _ _ _ (lookup_self_insert _ _ _)).
    unfold q_dataset at 1. cbn [data_vars set_data_var].
    by rewrite lookup_insert_eq. }
  split.
  { rewrite insert_insert_eq, lookup_insert_ne; [done|]. intros Heq.
    pose proof (fresh_loc_unused σ) as Hnew. rewrite Heq in Hnew. congruence. }
  split; [rewrite insert_insert_eq; apply lookup_self_insert|].
  split; [apply river_flow_with_river_flow|]. reflexivity.
Qed.

End GetQPipeline.

Lemma discharge_of_quantiles_witness :
  let d := ex_quantile [Fin (1 / 2)] ex_series in
  let v_eff :=
    ex_velocity_fill (xcoords d) (ycoords d) (zcoords d) (mkDataArray [[Fin 1; NaN]] [])
                     (Fin 0) (Fin 0) (h_a d) "quantile" in
  let q := ex_depth_integrate (zcoords d) v_eff (Fin 0) (Fin 0) (h_a d) (Fin 1) "q" in
  ∃ new σ1 σ2 d2 Q,
    get_q ex_quantile ex_velocity_fill ex_depth_integrate (Fin 0) (Fin 0)
          0%nat (Fin 1) [Fin (1 / 2)] {[0%nat := ex_series]} = (inr new, σ1) ∧
    get_river_flow new σ1 = (inr tt, σ2) ∧
    σ2 !! 0%nat = Some ex_series ∧ σ2 !! new = Some d2 ∧
    river_flow d2 = Some Q ∧ values Q = integrate_width (values q) (scoords d).
Proof.
  exact (discharge_of_quantiles ex_quantile ex_velocity_fill ex_depth_integrate
           (Fin 0) (Fin 0) {[0%nat := ex_series]} 0%nat ex_series (Fin 1) [Fin (1 / 2)]
           _ (lookup_singleton_eq _ _) ex_series_reduced).
Defined.

(** ** Points with a finite x and no y *)

Lemma arctan2_nan_ordinate (dx y_first y_last : f64) :
  isnan y_first || isnan y_last = true →
  fsub (arctan2 dx (fsub y_last y_first)) half_pi = NaN.
Proof.
  intros H. assert (fsub y_last y_first = NaN) as ->.
  { destruct y_first as [|[]|], y_last as [|[]|]; simpl in *; done. }
  by destruct dx.
Qed.

(** X19. Only x is tested for finiteness. In the global mode, when the
    first or the last of the points with a finite x has a NaN y, the call
    returns, and every stored direction and every effective velocity is NaN. *)
Theorem global_mode_nan_ordinate (σ : heap) (self : loc) (ds : Dataset)
    (v_x v_y : string) (vx vy : DataArray grid) (x_first x_last y_first y_last : f64) :
  σ !! self = Some ds →
  data_vars ds !! v_x = Some vx → data_vars ds !! v_y = Some vy →
  head (finite_xs ds) = Some x_first → last (finite_xs ds) = Some x_last →
  head (finite_ys ds) = Some y_first → last (finite_ys ds) = Some y_last →
  isnan y_first || isnan y_last = true →
  ∃ σ' ds' vd ve,
    vector_to_scalar self 0 v_x v_y σ = (inr tt, σ') ∧
    σ' !! self = Some ds' ∧
    v_dir ds' = Some vd ∧ values vd = replicate (n_points ds) NaN ∧
    data_vars ds' !! "v_eff_nofill" = Some ve ∧
    ∀ (t p : nat) (c : f64), cell (values ve) t p = Some c → c = NaN.
Proof.
  intros Hσ Hx Hy Hxf Hxl Hyf Hyl Hnan. eexists _, _, _, _.
  split; [by apply (global_mode_returns _ _ ds)|].
  split; [apply lookup_self_insert|]. split; [apply v_dir_with_projection|].
  cbn [values]. unfold flow_direction, angle_map.
  rewrite (arctan2_nan_ordinate _ _ _ Hnan).
  split; [by unfold ones_times; rewrite fmap_replicate|].
  split; [apply v_eff_with_projection|]. cbn [values].
  intros t p c (a & b & fd & _ & _ & [= <-] & ->)%cell_effective_velocity_inv.
  apply projection_nan_direction.
Qed.

Lemma global_mode_nan_ordinate_witness :
  finite_xs ex_nan_ordinate = [Fin 0; Fin 1] ∧
  finite_ys ex_nan_ordinate = [NaN; Fin 0] ∧
  ∃ σ' ds' vd ve,
    vector_to_scalar 0 0 "v_x" "v_y" {[0%nat := ex_nan_ordinate]} = (inr tt, σ') ∧
    σ' !! 0%nat = Some ds' ∧
    v_dir ds' = Some vd ∧ values vd = replicate (n_points ex_nan_ordinate) NaN ∧
    data_vars ds' !! "v_eff_nofill" = Some ve ∧
    ∀ (t p : nat) (c : f64), cell (values ve) t p = Some c → c = NaN.
Proof.
  split; [reflexivity|]. split; [reflexivity|].
  exact (global_mode_nan_ordinate {[0%nat := ex_nan_ordinate]} 0%nat ex_nan_ordinate
           "v_x" "v_y" _ _ (Fin 0) (Fin 1) NaN (Fin 0) (lookup_singleton_eq _ _)
           (ex_velocity_v_x _ _) (ex_velocity_v_y _ _) eq_refl eq_refl eq_refl eq_refl
           eq_refl).
Defined.

(** ** Names that the dataset does not have *)


Lemma not_other_name (k : string) :
  Forall (λ n : string, k ≠ n) other_names → k ∉ other_names.
Proof. intros H Hin. rewrite Forall_forall in H. by apply (H k). Qed.



(** ** The same call twice *)

(** X10. vector_to_scalar is idempotent: after a call that returns, the
    same call returns again and leaves the store as the first call left
    it, for inputs that are variables over (time, points) other than
    "v_eff_nofill", which the call writes, as it writes "v_dir". *)
Theorem vector_to_scalar_idempotent (σ σ' : heap) (self : loc) (ds : Dataset)
    (angle_method : Z) (v_x v_y : string) :
  σ !! self = Some ds →
  v_x ≠ "v_eff_nofill" → v_y ≠ "v_eff_nofill" →
  v_x ∉ other_names → v_y ∉ other_names →
  vector_to_scalar self angle_method v_x v_y σ = (inr tt, σ') →
  vector_to_scalar self angle_method v_x v_y σ' = (inr tt, σ').
Proof.
  intros Hσ Hvx Hvy _ _ Hrun.
  destruct (vector_to_scalar_returns _ _ _ _ _ _ _ Hσ Hrun)
    as (angle_da & vx & vy & Hs & Hx & Hy & ->).
  rewrite (vector_to_scalar_run _ _ _ _ _ _ (lookup_self_insert _ _ _)).
  change (section_angle (with_projection ds (flow_direction angle_da) vx vy) angle_method)
    with (section_angle ds angle_method).
  rewrite Hs.
  assert (∀ k, k ≠ "v_eff_nofill" →
               data_vars (with_projection ds (flow_direction angle_da) vx vy) !! k =
               data_vars ds !! k) as Hk.
  { intros k Hk. simpl. by rewrite lookup_insert_ne. }
  rewrite !Hk, Hx, Hy by done. by rewrite with_projection_twice, insert_insert_eq.
Qed.

Lemma vector_to_scalar_idempotent_witness :
  vector_to_scalar 0 0 "v_x" "v_y"
    (<[0%nat := ex_two_points_projected]> {[0%nat := ex_two_points]}) =
  (inr tt, <[0%nat := ex_two_points_projected]> {[0%nat := ex_two_points]}).
Proof.
  refine (vector_to_scalar_idempotent {[0%nat := ex_two_points]} _ 0%nat ex_two_points 0
            "v_x" "v_y" (lookup_singleton_eq _ _) _ _ _ _ ex_two_points_run);
    (done || (apply not_other_name; by repeat constructor)).
Defined.

(** ** The sign of the discharge *)

Lemma fadd_not_negative (a b : f64) :
  not_negative a → not_negative b → not_negative (fadd a b).
Proof.
  destruct a as [|sa|ra], b as [|sb|rb]; simpl; try done.
  - by intros -> ->.
  - lra.
Qed.

Lemma fmul_not_negative (a b : f64) :
  not_negative a → not_negative b → not_negative (fmul a b).
Proof.
  destruct a as [|sa|ra], b as [|sb|rb]; simpl; try done.
  - by intros -> ->.
  - intros -> H. destruct (Rzero rb); [done|]. simpl. unfold Rneg.
    destruct (Rlt_dec rb 0); [lra | done].
  - intros H ->. destruct (Rzero ra); [done|]. simpl. unfold Rneg.
    destruct (Rlt_dec ra 0); [lra | done].
  - intros. nra.
Qed.

(** Over stations in non-decreasing order, rows that are not below zero
    integrate to a value that is not below zero. *)
Lemma trapz_not_negative (s : list R) (y : list f64) :
  (∀ (i : nat) (a b : R), s !! i = Some a → s !! S i = Some b → a <= b) →
  Forall not_negative y → not_negative (trapz y (Fin <$> s)).
Proof.
  revert y. induction s as [|s0 s IH]; intros y Hs Hy.
  { rewrite trapz_nil_x. simpl. lra. }
  destruct y as [|y0 y]; [rewrite trapz_nil_y; simpl; lra|].
  destruct s as [|s1 s]; [rewrite (trapz_short_x _ (Fin s0)); simpl; lra|].
  destruct y as [|y1 y]; [rewrite (trapz_short_y y0); simpl; lra|].
  change (trapz (y0 :: y1 :: y) (Fin <$> s0 :: s1 :: s))
    with (trapz (y0 :: y1 :: y) (Fin s0 :: Fin s1 :: (Fin <$> s))).
  rewrite trapz_cons. inversion_clear Hy as [|?? Hy0 Hy']. inversion Hy' as [|?? Hy1 _]; subst.
  apply fadd_not_negative.
  - apply fmul_not_negative; [|by apply fadd_not_negative].
    pose proof (Hs 0%nat s0 s1 eq_refl eq_refl). simpl. lra.
  - apply (IH (y1 :: y)); [|done]. intros i a b. apply (Hs (S i)).
Qed.

(** X16. Over stations in non-decreasing order, a q whose entries are NaN,
    +inf or numbers that are not negative gives, for every quantile, a
    discharge that is not negative: never -inf and never a number below 0. *)
Theorem river_flow_nonnegative (σ : heap) (self : loc) (ds : Dataset) (q : DataArray grid) :
  σ !! self = Some ds → data_vars ds !! "q" = Some q →
  (∀ (i : nat) (a b : R),
     scoords ds !! i = Some a → scoords ds !! S i = Some b → a <= b) →
  (∀ (row : list f64) (v : f64),
     row ∈ values q → v ∈ row →
     v = NaN ∨ v = Inf false ∨ ∃ x : R, v = Fin x ∧ 0 <= x) →
  ∃ σ' ds' Q,
    get_river_flow self σ = (inr tt, σ') ∧ σ' !! self = Some ds' ∧
    river_flow ds' = Some Q ∧ length (values Q) = length (values q) ∧
    ∀ Qk : f64, Qk ∈ values Q → Qk ≠ Inf true ∧ ∀ x : R, Qk = Fin x → 0 <= x.
Proof.
  intros Hσ Hq Hs Hpos. eexists _, _, _.
  split. { rewrite (get_river_flow_run _ _ _ Hσ), Hq. done. }
  split; [apply lookup_self_insert|]. split; [apply river_flow_with_river_flow|].
  cbn [values]. unfold integrate_width. split; [by rewrite length_fmap|].
  intros Qk (row & -> & Hrow)%list_elem_of_fmap.
  assert (not_negative (trapz (fillna (Fin 0) <$> row) (Fin <$> scoords ds))) as Hnn.
  { apply trapz_not_negative; [done|]. apply Forall_fmap, Forall_forall.
    intros v Hv. destruct (Hpos row v Hrow Hv) as [->|[->|(x & -> & Hx)]]; simpl; lra || done. }
  destruct (trapz _ _) as [|s|r]; simpl in Hnn.
  - split; [done|]. by intros x.
  - subst s. split; [done|]. by intros x.
  - split; [done|]. by intros x [= <-].
Qed.

Lemma ex_flux_not_negative (row : list f64) (v : f64) :
  row ∈ [[Fin 2; Fin 2; Fin 2]; [Fin 2; NaN; Fin 2]] → v ∈ row →
  v = NaN ∨ v = Inf false ∨ ∃ x : R, v = Fin x ∧ 0 <= x.
Proof.
  assert (∃ x : R, Fin 2 = Fin x ∧ 0 <= x) by (exists 2; split; [done | lra]).
  intros Hrow Hv. repeat (apply elem_of_cons in Hrow as [->|Hrow]);
    [| |by apply elem_of_nil in Hrow];
    repeat (apply elem_of_cons in Hv as [->|Hv]); eauto; by apply elem_of_nil in Hv.
Qed.

Lemma river_flow_nonnegative_witness :
  ∃ σ' ds' Q,
    get_river_flow 0 {[0%nat := ex_flux]} = (inr tt, σ') ∧ σ' !! 0%nat = Some ds' ∧
    river_flow ds' = Some Q ∧ length (values Q) = 2%nat ∧
    ∀ Qk : f64, Qk ∈ values Q → Qk ≠ Inf true ∧ ∀ x : R, Qk = Fin x → 0 <= x.
Proof.
  exact (river_flow_nonnegative {[0%nat := ex_flux]} 0%nat ex_flux _
           (lookup_singleton_eq _ _) ex_flux_q ex_flux_stations ex_flux_not_negative).
Defined.
